(** * SPU CD-ROM audio streaming: the read scheduler of [src/psx/audio.c]

    A shallow embedding of the stream opener ([Audio_LoadStream]), the
    polling feeder ([Audio_FeedStream]) and the read-completion callback
    ([cd_read_handler]), followed by the properties of the streaming
    specification that concern them.

    Conventions.
    - C integers are values of [Z]; every conversion the C code performs is
      written out with [u16], [u32] (unsigned, 16 and 32 bits) and [s32]
      (signed 32 bits, two's complement).  The target is a 32-bit MIPS:
      [int] is 32 bits signed and [size_t] is 32 bits unsigned.  Signed
      overflow, undefined in C, is modelled as wrap-around; no theorem below
      relies on a signed operation that overflows.
    - Calls into the CD-ROM and stream libraries are effects: a function
      returns the list of calls it made ([call]), in order.  What those
      libraries answer when queried ([CdReadSync], [Stream_GetRefillLength],
      [Stream_GetFeedPtr]) is an input of the tick ([Env]).
    - The [while] loop of [Audio_FeedStream] takes fuel; [None] means that
      the fuel ran out before the loop was left. *)

From Stdlib Require Import ZArith Zbitwise List Bool Lia.
Import ListNotations.
Local Open Scope Z_scope.

(** ** Machine integers *)

Definition u16 (x : Z) : Z := x mod 2 ^ 16.
Definition u32 (x : Z) : Z := x mod 2 ^ 32.
Definition s32 (x : Z) : Z := (x + 2 ^ 31) mod 2 ^ 32 - 2 ^ 31.

Definition in_u16 (x : Z) : Prop := 0 <= x < 2 ^ 16.
Definition in_u32 (x : Z) : Prop := 0 <= x < 2 ^ 32.
Definition in_s32 (x : Z) : Prop := - 2 ^ 31 <= x < 2 ^ 31.

(** ** Constants of the source *)

Definition RAM_BUFFER_SIZE : Z := 0x18000.
Definition REFILL_THRESHOLD : Z := 24.
Definition STREAM_BUFFER_ADDR : Z := 0x1010.

(** The tag the header comment documents for interleaved files ("VAGi"). *)
Definition VAGi_magic : Z := 0x69474156.

(** ** The .VAG header *)

Record VAG_Header : Type := mkVAG_Header {
  magic       : Z;        (* uint32_t *)
  version     : Z;        (* uint32_t *)
  interleave  : Z;        (* uint32_t, little-endian *)
  size        : Z;        (* uint32_t, big-endian on the wire *)
  sample_rate : Z;        (* uint32_t, big-endian on the wire *)
  _reserved   : list Z;   (* uint16_t [5] *)
  channels    : Z;        (* uint16_t, little-endian *)
  name        : list Z    (* char [16] *)
}.

Definition wf_header (h : VAG_Header) : Prop :=
  in_u32 (magic h) /\ in_u32 (version h) /\ in_u32 (interleave h) /\
  in_u32 (size h) /\ in_u32 (sample_rate h) /\ in_u16 (channels h).

(** The macro [SWAP_ENDIAN]: each operand is cast to [uint32_t], masked and
    shifted; the four lanes are or-ed together. *)
Definition SWAP_ENDIAN (x : Z) : Z :=
  Z.lor (Z.lor (Z.lor
    (u32 (Z.shiftl (Z.land (u32 x) 0x000000ff) 24))
    (u32 (Z.shiftl (Z.land (u32 x) 0x0000ff00) 8)))
    (Z.shiftr (Z.land (u32 x) 0x00ff0000) 8))
    (Z.shiftr (Z.land (u32 x) 0xff000000) 24).

(** ** Effects *)

(** [CdlIntrResult] of the CD-ROM library. *)
Inductive CdlIntrResult : Type :=
| CdlNoIntr | CdlDataReady | CdlComplete | CdlAcknowledge | CdlDataEnd
| CdlDiskError.

Definition CdlIntrResult_eqb (a b : CdlIntrResult) : bool :=
  match a, b with
  | CdlNoIntr, CdlNoIntr | CdlDataReady, CdlDataReady
  | CdlComplete, CdlComplete | CdlAcknowledge, CdlAcknowledge
  | CdlDataEnd, CdlDataEnd | CdlDiskError, CdlDiskError => true
  | _, _ => false
  end.

(** The library calls the three functions make, with their arguments. *)
Inductive call : Type :=
| CdControl_Setloc (lba : Z)          (* CdIntToPos (lba, &pos); CdControl (CdlSetloc, &pos, 0) *)
| CdReadCallback (installed : bool)   (* CdReadCallback (&cd_read_handler) or (0) *)
| CdRead (sectors : Z)                (* CdRead (sectors, ptr, CdlModeSpeed) *)
| CdReadSync_wait                     (* CdReadSync (0, 0) *)
| SPU_CH_VOL (ch vol_l vol_r : Z)     (* SPU_CH_VOL_L (ch) = vol_l; SPU_CH_VOL_R (ch) = vol_r *)
| Stream_Init_call
| Stream_Feed (bytes : Z).

(** ** Contexts *)

Record StreamReadContext : Type := mkStreamReadContext {
  start_lba     : Z;   (* int *)
  stream_length : Z;   (* int *)
  next_sector   : Z;   (* volatile int *)
  refill_length : Z    (* volatile size_t *)
}.

(** The fields of [Stream_Config] that [Audio_LoadStream] assigns.  The
    declaration (stream.h) is not among the sources: [channel_mask] is
    taken to be an unsigned 32-bit field, one bit for each channel of the
    SPU. *)
Record Stream_Config : Type := mkStream_Config {
  spu_address      : Z;
  channel_mask     : Z;
  cfg_interleave   : Z;
  buffer_size      : Z;
  refill_threshold : Z;
  cfg_sample_rate  : Z
}.

(** The two fields of [stream_ctx] that [Audio_LoadStream] writes itself. *)
Record Stream_Context_fields : Type := mkStream_Context_fields {
  ctx_sample_rate : Z;
  samples         : Z
}.

(** What the libraries answer during one call of [Audio_FeedStream]. *)
Record Env : Type := mkEnv {
  CdReadSync_result             : Z;   (* CdReadSync (1, 0), int *)
  Stream_GetRefillLength_result : Z;   (* size_t, bytes *)
  Stream_GetFeedPtr_result      : Z    (* size_t, bytes *)
}.

Definition wf_env (o : Env) : Prop :=
  in_s32 (CdReadSync_result o) /\
  in_u32 (Stream_GetRefillLength_result o) /\
  in_u32 (Stream_GetFeedPtr_result o).

(** ** [cd_read_handler] *)

Definition cd_read_handler (event : CdlIntrResult) (read_ctx : StreamReadContext)
  : StreamReadContext * list call :=
  if negb (CdlIntrResult_eqb event CdlDiskError)
  then (read_ctx, [Stream_Feed (u32 (refill_length read_ctx * 2048))])
  else (read_ctx, []).

(** ** [Audio_FeedStream] *)

(** The loop [while (max_length <= 0) { next_sector -= stream_length;
    max_length += stream_length; }], returning the two locals. *)
Fixpoint normalize (fuel : nat) (stream_length next_sector max_length : Z)
  : option (Z * Z) :=
  if max_length <=? 0 then
    match fuel with
    | O => None
    | S fuel' =>
        normalize fuel' stream_length
          (s32 (next_sector - stream_length))
          (s32 (max_length + stream_length))
    end
  else Some (next_sector, max_length).

Definition Audio_FeedStream (fuel : nat) (o : Env) (read_ctx : StreamReadContext)
  : option (bool * StreamReadContext * list call) :=
  if 0 <? CdReadSync_result o then Some (true, read_ctx, [])
  else if Stream_GetRefillLength_result o <? REFILL_THRESHOLD * 2048
  then Some (false, read_ctx, [])
  else
    let refill_length0 := Stream_GetFeedPtr_result o / 2048 in
    let next_sector0 := next_sector read_ctx in
    let max_length0 := s32 (stream_length read_ctx - next_sector0) in
    match normalize fuel (stream_length read_ctx) next_sector0 max_length0 with
    | None => None
    | Some (next_sector1, max_length1) =>
        let refill_length1 :=
          if u32 max_length1 <? refill_length0
          then u32 max_length1 else refill_length0 in
        Some (true,
              {| start_lba     := start_lba read_ctx;
                 stream_length := stream_length read_ctx;
                 next_sector   := s32 (u32 (u32 next_sector1 + refill_length1));
                 refill_length := refill_length1 |},
              [ CdControl_Setloc (s32 (start_lba read_ctx + next_sector1));
                CdReadCallback true;
                CdRead (s32 refill_length1) ])
    end.

(** ** [Audio_LoadStream] *)

(** The loop over the channels: the mask gains one bit per channel, within
    its 32 bits, and the channels are panned left and right in pairs. *)
Fixpoint channel_loop (n : nat) (ch : Z) (mask : Z) : Z * list call :=
  match n with
  | O => (mask, [])
  | S n' =>
      let mask' := u32 (Z.lor (Z.shiftl mask 1) 1) in
      let vol_l := if ch mod 2 =? 0 then 0x3fff else 0x0000 in
      let vol_r := if ch mod 2 =? 0 then 0x0000 else 0x3fff in
      let '(m, tr) := channel_loop n' (ch + 1) mask' in
      (m, SPU_CH_VOL ch vol_l vol_r :: tr)
  end.

Definition num_channels_of (vag : VAG_Header) : Z :=
  if u16 (channels vag) =? 0 then 2 else u16 (channels vag).

Definition num_chunks_of (vag : VAG_Header) : Z :=
  s32 (u32 (u32 (SWAP_ENDIAN (size vag) + u32 (interleave vag)) - 1)
       / u32 (interleave vag)).

Definition stream_length_of (vag : VAG_Header) : Z :=
  s32 (u32 (u32 (u32 (s32 (num_channels_of vag * num_chunks_of vag))
                 * u32 (interleave vag)) + 2047) / 2048).

Inductive load_result : Type :=
| Load_NotFound
| Load_DivByZero
| Load_Ok (config : Stream_Config) (sctx : Stream_Context_fields)
          (read_ctx : StreamReadContext) (trace : list call).

(** Modelled from the spec: [ErrorLock] (main.c) is not among the sources.
    A file that is not found is fatal to opening the stream: [ErrorLock]
    does not give control back to the opener. *)
Definition ErrorLock : load_result := Load_NotFound.

(** Lines 207 to 256: everything before the closing fill loop.  [file] is
    the outcome of [CdSearchFile]: [None] when the path is not on the disc,
    otherwise what [CdPosToInt (&file.pos)] evaluates to.  [vag] is the
    content of the first sector of the file.  Division by an interleave of
    0 is reported as [Load_DivByZero]. *)
Definition Audio_LoadStream_setup (file : option Z) (vag : VAG_Header)
  : load_result :=
  match file with
  | None => ErrorLock
  | Some file_pos =>
      if u32 (interleave vag) =? 0 then Load_DivByZero
      else
        let num_channels := num_channels_of vag in
        let '(mask, vols) := channel_loop (Z.to_nat num_channels) 0 0 in
        Load_Ok
          {| spu_address      := STREAM_BUFFER_ADDR;
             channel_mask     := mask;
             cfg_interleave   := u32 (interleave vag);
             buffer_size      := RAM_BUFFER_SIZE;
             refill_threshold := 0;
             cfg_sample_rate  := SWAP_ENDIAN (sample_rate vag) |}
          {| ctx_sample_rate := SWAP_ENDIAN (sample_rate vag);
             samples         := u32 (SWAP_ENDIAN (size vag) / 16 * 28) |}
          {| start_lba     := s32 (file_pos + 1);
             stream_length := stream_length_of vag;
             next_sector   := 0;
             refill_length := 0 |}
          ([ CdControl_Setloc file_pos; CdReadCallback false; CdRead 1;
             CdReadSync_wait ] ++ vols ++ [ Stream_Init_call ])
  end.

(** The closing loop [while (Audio_FeedStream ());]: one tick per answer of
    the environment, until a tick returns [false].  [None] when a tick runs
    out of fuel, or when the loop is still running after the last answer. *)
Fixpoint fill_loop (fuel : nat) (envs : list Env) (read_ctx : StreamReadContext)
  : option (StreamReadContext * list call) :=
  match envs with
  | [] => None
  | o :: envs' =>
      match Audio_FeedStream fuel o read_ctx with
      | None => None
      | Some (false, read_ctx', tr) => Some (read_ctx', tr)
      | Some (true, read_ctx', tr) =>
          match fill_loop fuel envs' read_ctx' with
          | None => None
          | Some (read_ctx'', tr') => Some (read_ctx'', tr ++ tr')
          end
      end
  end.

Inductive open_result : Type :=
| Open_NotFound
| Open_DivByZero
| Open_Unfinished
| Open_Ok (config : Stream_Config) (sctx : Stream_Context_fields)
          (read_ctx : StreamReadContext) (trace : list call).

Definition Audio_LoadStream (fuel : nat) (file : option Z) (vag : VAG_Header)
  (envs : list Env) : open_result :=
  match Audio_LoadStream_setup file vag with
  | Load_NotFound => Open_NotFound
  | Load_DivByZero => Open_DivByZero
  | Load_Ok config sctx read_ctx tr =>
      match fill_loop fuel envs read_ctx with
      | None => Open_Unfinished
      | Some (read_ctx', tr') => Open_Ok config sctx read_ctx' (tr ++ tr')
      end
  end.

(** ** Runs of the scheduler *)

Inductive event : Type :=
| Tick (o : Env)
| Interrupt (ev : CdlIntrResult).

Definition step (fuel : nat) (e : event) (read_ctx : StreamReadContext)
  : option (StreamReadContext * list call) :=
  match e with
  | Tick o =>
      match Audio_FeedStream fuel o read_ctx with
      | None => None
      | Some (_, read_ctx', tr) => Some (read_ctx', tr)
      end
  | Interrupt ev => Some (cd_read_handler ev read_ctx)
  end.

Fixpoint run (fuel : nat) (es : list event) (read_ctx : StreamReadContext)
  : option (StreamReadContext * list call) :=
  match es with
  | [] => Some (read_ctx, [])
  | e :: es' =>
      match step fuel e read_ctx with
      | None => None
      | Some (read_ctx', tr) =>
          match run fuel es' read_ctx' with
          | None => None
          | Some (read_ctx'', tr') => Some (read_ctx'', tr ++ tr')
          end
      end
  end.

Definition wf_event (e : event) : Prop :=
  match e with Tick o => wf_env o | Interrupt _ => True end.

(** The states of [read_ctx] that a program can observe: the one
    [Audio_LoadStream] sets up, and those that ticks and read completions
    lead to from there. *)
Inductive reachable : StreamReadContext -> Prop :=
| reach_load : forall file_pos vag config sctx read_ctx tr,
    Audio_LoadStream_setup (Some file_pos) vag = Load_Ok config sctx read_ctx tr ->
    reachable read_ctx
| reach_step : forall fuel e read_ctx read_ctx' tr,
    reachable read_ctx -> wf_event e ->
    step fuel e read_ctx = Some (read_ctx', tr) ->
    reachable read_ctx'.



(** Device idle and free space at least the refill threshold: the two tests
    a tick passes before it issues a read. *)
Definition issues (o : Env) : Prop :=
  CdReadSync_result o <= 0 /\
  REFILL_THRESHOLD * 2048 <= Stream_GetRefillLength_result o.

(** ** Closed forms used in the statements *)

(** The context and the calls of a tick that passes both tests, for a
    cursor in [0, stream_length]. *)
Definition issued_ctx (o : Env) (s : StreamReadContext) : StreamReadContext :=
  let ns := next_sector s mod stream_length s in
  let n := Z.min (Stream_GetFeedPtr_result o / 2048) (stream_length s - ns) in
  {| start_lba := start_lba s; stream_length := stream_length s;
     next_sector := ns + n; refill_length := n |}.

Definition issued_calls (o : Env) (s : StreamReadContext) : list call :=
  let ns := next_sector s mod stream_length s in
  let n := Z.min (Stream_GetFeedPtr_result o / 2048) (stream_length s - ns) in
  [ CdControl_Setloc (s32 (start_lba s + ns)); CdReadCallback true; CdRead n ].

(** The bounds that hold of every reachable context. *)
Definition cursor_inv (s : StreamReadContext) : Prop :=
  0 <= stream_length s < 2 ^ 21 /\ 0 <= next_sector s <= stream_length s.

(** The header with the tag and the channel count replaced. *)
Definition with_tag (m v : Z) (vag : VAG_Header) : VAG_Header :=
  {| magic := m; version := v; interleave := interleave vag;
     size := size vag; sample_rate := sample_rate vag;
     _reserved := _reserved vag; channels := channels vag;
     name := name vag |}.

Definition with_channels (c : Z) (vag : VAG_Header) : VAG_Header :=
  {| magic := magic vag; version := version vag; interleave := interleave vag;
     size := size vag; sample_rate := sample_rate vag;
     _reserved := _reserved vag; channels := c; name := name vag |}.

(** The number of channels a trace pans. *)
Fixpoint panned_channels (tr : list call) : Z :=
  match tr with
  | [] => 0
  | SPU_CH_VOL _ _ _ :: tr' => 1 + panned_channels tr'
  | _ :: tr' => panned_channels tr'
  end.

(** A 32-bit word from its four bytes in memory order, read little-endian
    (as the host does) and big-endian (as the wire order of [size] and
    [sample_rate] is). *)
Definition le32 (b0 b1 b2 b3 : Z) : Z :=
  b0 + b1 * 2 ^ 8 + b2 * 2 ^ 16 + b3 * 2 ^ 24.
Definition be32 (b0 b1 b2 b3 : Z) : Z :=
  b0 * 2 ^ 24 + b1 * 2 ^ 16 + b2 * 2 ^ 8 + b3.
Definition is_byte (b : Z) : Prop := 0 <= b < 2 ^ 8.

(** ** Concrete streams and ticks *)

(** Two channels, an interleave of 4096 bytes and 40960 bytes of samples:
    10 chunks, 40 sectors. *)
Definition vag_40 : VAG_Header :=
  {| magic := VAGi_magic; version := 3; interleave := 4096;
     size := le32 0 0 0xa0 0; sample_rate := le32 0 0 0xac 0x44;
     _reserved := [0; 0; 0; 0; 0]; channels := 2; name := [] |}.

(** The same stream under a tag that is not "VAGi". *)
Definition vag_untagged : VAG_Header := with_tag 0 0 vag_40.

(** No samples at all. *)
Definition vag_empty : VAG_Header :=
  {| magic := VAGi_magic; version := 3; interleave := 4096;
     size := 0; sample_rate := le32 0 0 0xac 0x44;
     _reserved := [0; 0; 0; 0; 0]; channels := 2; name := [] |}.

(** A size field of 0xfffff001 bytes. *)
Definition vag_huge : VAG_Header :=
  {| magic := VAGi_magic; version := 3; interleave := 4096;
     size := le32 0xff 0xff 0xf0 0x01; sample_rate := le32 0 0 0xac 0x44;
     _reserved := [0; 0; 0; 0; 0]; channels := 2; name := [] |}.

(** The read context of [vag_40] found at sector 100, as set up and with
    the cursor at 24, 35 and 40. *)
Definition ctx_at (ns rl : Z) : StreamReadContext :=
  {| start_lba := 101; stream_length := 40; next_sector := ns;
     refill_length := rl |}.

Definition ctx_empty : StreamReadContext :=
  {| start_lba := 101; stream_length := 0; next_sector := 0;
     refill_length := 0 |}.

(** Device idle, [free] sectors free in the ring buffer of which [feed]
    can be written in one piece. *)
Definition env_free (free feed : Z) : Env :=
  {| CdReadSync_result := 0;
     Stream_GetRefillLength_result := free * 2048;
     Stream_GetFeedPtr_result := feed * 2048 |}.

(** ** The rest of [audio.c] *)



Section Spu.

(** The macro [getSPUAddr] belongs to the SPU library's header. *)
Variable getSPUAddr : Z -> Z.




End Spu.

(** [Audio_GetInitialTime]: [stream_ctx.samples / stream_ctx.sample_rate],
    returned as [uint32_t]; [None] is the division by 0.  The two fields are
    read as the unsigned 32-bit values [Audio_LoadStream] stores in them. *)
Definition Audio_GetInitialTime (sctx : Stream_Context_fields) : option Z :=
  if ctx_sample_rate sctx =? 0 then None
  else Some (u32 (samples sctx / ctx_sample_rate sctx)).

(** The call that pans channel [ch] in [Audio_LoadStream]. *)
Definition pan_call (ch : Z) : call :=
  SPU_CH_VOL ch (if ch mod 2 =? 0 then 0x3fff else 0x0000)
                (if ch mod 2 =? 0 then 0x0000 else 0x3fff).

(** The channels [first], ..., [first + n - 1]. *)
Fixpoint channel_range (n : nat) (first : Z) : list Z :=
  match n with
  | O => []
  | S n' => first :: channel_range n' (first + 1)
  end.

(** The reads of a trace as pairs of a sector and a length: each [CdRead]
    with the position set last before it ([pos] when none was set). *)
Fixpoint read_requests (pos : Z) (tr : list call) : list (Z * Z) :=
  match tr with
  | [] => []
  | CdControl_Setloc lba :: tr' => read_requests lba tr'
  | CdRead n :: tr' => (pos, n) :: read_requests pos tr'
  | _ :: tr' => read_requests pos tr'
  end.

(** A tick that the device being busy cuts short. *)
Definition busy (o : Env) : Prop := 0 < CdReadSync_result o.

(** A tick that returns [true]: device busy, or free space at the
    threshold. *)
Definition keeps_filling (o : Env) : Prop :=
  0 < CdReadSync_result o \/
  REFILL_THRESHOLD * 2048 <= Stream_GetRefillLength_result o.

(** Every [Stream_Feed] of a trace commits 2048 bytes for each sector of
    the [CdRead] last before it ([pending] sectors when there is none). *)
Fixpoint feeds_match (pending : Z) (tr : list call) : Prop :=
  match tr with
  | [] => True
  | CdRead n :: tr' => feeds_match n tr'
  | Stream_Feed bytes :: tr' => bytes = pending * 2048 /\ feeds_match pending tr'
  | _ :: tr' => feeds_match pending tr'
  end.

(** A read that lies within the sectors of the stream. *)
Definition within_stream (s : StreamReadContext) (r : Z * Z) : Prop :=
  start_lba s <= fst r /\ 0 <= snd r /\
  fst r + snd r <= start_lba s + stream_length s.

(** ** [character/dad.c] *)

Module Dad.

(** The anonymous enumeration of the archive entries. *)
Definition Dad_ArcMain_Idle0 : Z := 0.
Definition Dad_ArcMain_Idle1 : Z := 1.
Definition Dad_ArcMain_Left  : Z := 2.
Definition Dad_ArcMain_Down  : Z := 3.
Definition Dad_ArcMain_Up    : Z := 4.
Definition Dad_ArcMain_Right : Z := 5.
Definition Dad_Arc_Max       : Z := 6.

(** [CharFrame], as the initializers of [char_dad_frame] fill it: a
    texture, a source rectangle and an offset. *)
Record CharFrame : Type := mkCharFrame {
  tex : Z;
  src : list Z;
  off : list Z
}.

Definition char_dad_frame : list CharFrame :=
  [ mkCharFrame Dad_ArcMain_Idle0 [  0;   0; 106; 192] [ 42; 183 + 4];
    mkCharFrame Dad_ArcMain_Idle0 [107;   0; 108; 190] [ 43; 181 + 4];
    mkCharFrame Dad_ArcMain_Idle1 [  0;   0; 107; 190] [ 42; 181 + 4];
    mkCharFrame Dad_ArcMain_Idle1 [108;   0; 105; 192] [ 41; 183 + 4];

    mkCharFrame Dad_ArcMain_Left  [  0;   0;  93; 195] [ 40; 185 + 4];
    mkCharFrame Dad_ArcMain_Left  [ 94;   0;  95; 195] [ 40; 185 + 4];

    mkCharFrame Dad_ArcMain_Down  [  0;   0; 118; 183] [ 43; 174 + 4];
    mkCharFrame Dad_ArcMain_Down  [119;   0; 117; 183] [ 43; 175 + 4];

    mkCharFrame Dad_ArcMain_Up    [  0;   0; 102; 205] [ 40; 196 + 4];
    mkCharFrame Dad_ArcMain_Up    [103;   0; 103; 203] [ 40; 194 + 4];

    mkCharFrame Dad_ArcMain_Right [  0;   0; 117; 199] [ 43; 189 + 4];
    mkCharFrame Dad_ArcMain_Right [118;   0; 114; 199] [ 42; 189 + 4] ].

(** The two fields of [Char_Dad] that [Char_Dad_SetFrame] reads and
    writes. *)
Record Char_Dad : Type := mkChar_Dad {
  frame  : Z;   (* uint8_t *)
  tex_id : Z    (* uint8_t *)
}.

(** [Gfx_LoadTex (&this->tex, this->arc_ptr[arc], 0)]. *)
Inductive gfx_call : Type :=
| Gfx_LoadTex (arc : Z).

(** [Char_Dad_SetFrame].  [None] is an access outside [char_dad_frame]
    or outside [arc_ptr], which has [Dad_Arc_Max] entries. *)
Definition Char_Dad_SetFrame (this : Char_Dad) (new_frame : Z)
  : option (Char_Dad * list gfx_call) :=
  if negb (new_frame =? frame this) then
    if (0 <=? new_frame) && (new_frame <? Z.of_nat (length char_dad_frame))
    then
      match nth_error char_dad_frame (Z.to_nat new_frame) with
      | None => None
      | Some cframe =>
          if negb (tex cframe =? tex_id this) then
            if (0 <=? tex cframe) && (tex cframe <? Dad_Arc_Max)
            then Some ({| frame := new_frame; tex_id := tex cframe |},
                       [ Gfx_LoadTex (tex cframe) ])
            else None
          else Some ({| frame := new_frame; tex_id := tex_id this |}, [])
      end
    else None
  else Some (this, []).

(** The frames set one after the other, with the textures loaded. *)
Fixpoint set_frames (this : Char_Dad) (frames : list Z)
  : option (Char_Dad * list gfx_call) :=
  match frames with
  | [] => Some (this, [])
  | f :: frames' =>
      match Char_Dad_SetFrame this f with
      | None => None
      | Some (this', tr) =>
          match set_frames this' frames' with
          | None => None
          | Some (this'', tr') => Some (this'', tr ++ tr')
          end
      end
  end.

(** The texture recorded as loaded is the one of the frame shown. *)
Definition consistent (this : Char_Dad) : Prop :=
  exists cframe,
    nth_error char_dad_frame (Z.to_nat (frame this)) = Some cframe /\
    0 <= frame this /\ tex cframe = tex_id this.

End Dad.

(** * Properties *)

(** ** Machine integers *)

Lemma u32_small (x : Z) : 0 <= x < 2 ^ 32 -> u32 x = x.
Proof. intros H. unfold u32. apply Z.mod_small. exact H. Qed.

Lemma u16_small (x : Z) : 0 <= x < 2 ^ 16 -> u16 x = x.
Proof. intros H. unfold u16. apply Z.mod_small. exact H. Qed.

Lemma s32_small (x : Z) : - 2 ^ 31 <= x < 2 ^ 31 -> s32 x = x.
Proof. intros H. unfold s32. rewrite Z.mod_small; lia. Qed.

Lemma u32_range (x : Z) : 0 <= u32 x < 2 ^ 32.
Proof. unfold u32. apply Z.mod_pos_bound. lia. Qed.

Lemma u16_range (x : Z) : 0 <= u16 x < 2 ^ 16.
Proof. unfold u16. apply Z.mod_pos_bound. lia. Qed.

Lemma s32_range (x : Z) : - 2 ^ 31 <= s32 x < 2 ^ 31.
Proof.
  unfold s32. pose proof (Z.mod_pos_bound (x + 2 ^ 31) (2 ^ 32)). lia.
Qed.

(** ** The normalization loop *)

(** More fuel does not change a result. *)
Lemma normalize_fuel_mono (len : Z) (fuel : nat) :
  forall ns ml r, normalize fuel len ns ml = Some r ->
                  normalize (S fuel) len ns ml = Some r.
Proof.
  induction fuel as [|fuel IH]; intros ns ml r H.
  - simpl in H. simpl. destruct (ml <=? 0); [discriminate | exact H].
  - cbn [normalize] in H. cbn [normalize].
    destruct (ml <=? 0); [| exact H].
    apply IH in H. exact H.
Qed.

(** With a positive stream length the loop is left after finitely many
    rounds, from any values of the locals. *)
Lemma normalize_total (len : Z) (Hlen : 1 <= len < 2 ^ 31) (fuel : nat) :
  forall ns ml, in_s32 ml -> 1 - ml <= Z.of_nat fuel ->
                normalize fuel len ns ml <> None.
Proof.
  unfold in_s32.
  induction fuel as [|fuel IH]; intros ns ml Hml Hfuel.
  - simpl. destruct (Z.leb_spec ml 0); [lia | discriminate].
  - cbn [normalize]. destruct (Z.leb_spec ml 0); [| discriminate].
    apply IH; rewrite s32_small; lia.
Qed.

(** With a stream length of 0 and nothing left to read, the loop is never
    left. *)
Lemma normalize_zero_diverges (fuel : nat) :
  forall ns ml, in_s32 ml -> ml <= 0 -> normalize fuel 0 ns ml = None.
Proof.
  unfold in_s32.
  induction fuel as [|fuel IH]; intros ns ml Hml Hle.
  - simpl. destruct (Z.leb_spec ml 0); [reflexivity | lia].
  - cbn [normalize]. destruct (Z.leb_spec ml 0); [| lia].
    apply IH; rewrite Z.add_0_r, s32_small; lia.
Qed.

(** From a cursor in [0, stream_length] one round at most is needed, and
    the loop leaves the cursor reduced modulo the stream length. *)
Lemma normalize_cursor (len ns : Z) (fuel : nat) :
  1 <= len < 2 ^ 31 -> 0 <= ns <= len ->
  normalize (S fuel) len ns (s32 (len - ns))
  = Some (ns mod len, len - ns mod len).
Proof.
  intros Hlen Hns. rewrite s32_small by lia.
  cbn [normalize]. destruct (Z.leb_spec (len - ns) 0) as [Hle | Hgt].
  - assert (ns = len) by lia. subst ns.
    rewrite Z.mod_same by lia.
    replace (len - len + len) with len by lia.
    rewrite Z.sub_diag. rewrite !s32_small by lia.
    destruct fuel; simpl; destruct (Z.leb_spec len 0); try lia;
      rewrite Z.sub_0_r; reflexivity.
  - rewrite Z.mod_small by lia. reflexivity.
Qed.

(** ** Geometry is in range *)

Lemma stream_length_of_range (vag : VAG_Header) :
  0 <= stream_length_of vag < 2 ^ 21.
Proof.
  unfold stream_length_of.
  set (x := u32 (_ + 2047)).
  assert (Hx : 0 <= x < 2 ^ 32) by apply u32_range.
  assert (Hd : 0 <= x / 2048 < 2 ^ 21).
  { split.
    - apply Z.div_pos; lia.
    - apply Z.div_lt_upper_bound; lia. }
  rewrite s32_small; lia.
Qed.

(** ** What a tick that issues a read does *)

Lemma feed_blocks_range (o : Env) :
  wf_env o -> 0 <= Stream_GetFeedPtr_result o / 2048 < 2 ^ 21.
Proof.
  intros (_ & _ & H). unfold in_u32 in H. split.
  - apply Z.div_pos; lia.
  - apply Z.div_lt_upper_bound; lia.
Qed.

Lemma Audio_FeedStream_issue (fuel : nat) (o : Env) (s : StreamReadContext) :
  cursor_inv s -> 1 <= stream_length s -> wf_env o -> issues o ->
  Audio_FeedStream (S fuel) o s = Some (true, issued_ctx o s, issued_calls o s).
Proof.
  intros [Hlen Hns] Hpos Hwf [Hidle Hthr].
  pose proof (feed_blocks_range o Hwf) as Hfeed.
  unfold Audio_FeedStream.
  destruct (Z.ltb_spec 0 (CdReadSync_result o)); [lia |].
  destruct (Z.ltb_spec (Stream_GetRefillLength_result o) (REFILL_THRESHOLD * 2048));
    [lia |].
  rewrite normalize_cursor by lia.
  assert (Hm : 0 <= next_sector s mod stream_length s < stream_length s)
    by (apply Z.mod_pos_bound; lia).
  unfold issued_ctx, issued_calls.
  set (ns := next_sector s mod stream_length s) in *.
  set (fb := Stream_GetFeedPtr_result o / 2048) in *.
  rewrite (u32_small (stream_length s - ns)) by lia.
  destruct (Z.ltb_spec (stream_length s - ns) fb).
  - rewrite Z.min_r by lia.
    rewrite (u32_small ns) by lia.
    rewrite (u32_small (ns + _)) by lia.
    rewrite (s32_small (ns + _)) by lia.
    rewrite (s32_small (stream_length s - ns)) by lia. reflexivity.
  - rewrite Z.min_l by lia.
    rewrite (u32_small ns) by lia.
    rewrite (u32_small (ns + _)) by lia.
    rewrite (s32_small (ns + fb)) by lia.
    rewrite (s32_small fb) by lia. reflexivity.
Qed.

(** A tick that does not pass both tests leaves the context alone and
    makes no call. *)
Lemma Audio_FeedStream_idle (fuel : nat) (o : Env) (s : StreamReadContext) :
  ~ issues o ->
  exists b, Audio_FeedStream fuel o s = Some (b, s, []).
Proof.
  intros Hn. unfold Audio_FeedStream, issues in *.
  destruct (Z.ltb_spec 0 (CdReadSync_result o)); [eexists; reflexivity |].
  destruct (Z.ltb_spec (Stream_GetRefillLength_result o) (REFILL_THRESHOLD * 2048));
    [eexists; reflexivity | lia].
Qed.

Lemma issues_dec (o : Env) : {issues o} + {~ issues o}.
Proof.
  unfold issues.
  destruct (Z_le_dec (CdReadSync_result o) 0);
    destruct (Z_le_dec (REFILL_THRESHOLD * 2048) (Stream_GetRefillLength_result o));
    (left; lia) || (right; lia).
Qed.

(** With a stream length of 0 a tick that passes both tests never returns,
    for a cursor in [0, stream_length]. *)
Lemma Audio_FeedStream_zero_diverges (fuel : nat) (o : Env) (s : StreamReadContext) :
  cursor_inv s -> stream_length s = 0 -> issues o ->
  Audio_FeedStream fuel o s = None.
Proof.
  intros [Hlen Hns] H0 [Hidle Hthr].
  unfold Audio_FeedStream.
  destruct (Z.ltb_spec 0 (CdReadSync_result o)); [lia |].
  destruct (Z.ltb_spec (Stream_GetRefillLength_result o) (REFILL_THRESHOLD * 2048));
    [lia |].
  rewrite H0. rewrite normalize_zero_diverges; [reflexivity | |].
  - apply s32_range.
  - rewrite s32_small; lia.
Qed.

(** ** The invariant of the cursor *)

Lemma cursor_inv_setup file_pos vag config sctx read_ctx tr :
  Audio_LoadStream_setup (Some file_pos) vag = Load_Ok config sctx read_ctx tr ->
  cursor_inv read_ctx.
Proof.
  unfold Audio_LoadStream_setup.
  destruct (u32 (interleave vag) =? 0); [discriminate |].
  destruct (channel_loop _ _ _) as [mask vols].
  intros H. injection H as _ _ <- _.
  pose proof (stream_length_of_range vag).
  unfold cursor_inv; simpl. lia.
Qed.

Lemma cursor_inv_step fuel e s s' tr :
  cursor_inv s -> wf_event e -> step fuel e s = Some (s', tr) -> cursor_inv s'.
Proof.
  intros Hinv Hwf Hstep. destruct e as [o | ev]; simpl in *.
  - destruct (issues_dec o) as [Hi | Hn].
    + destruct (Z_le_dec 1 (stream_length s)) as [Hpos | Hz].
      * destruct fuel as [|fuel].
        -- pose proof (Audio_FeedStream_issue 0 o s Hinv Hpos Hwf Hi) as E.
           destruct (Audio_FeedStream 0 o s) as [[[b c] t]|] eqn:E0;
             [| discriminate].
           unfold Audio_FeedStream in E, E0.
           destruct (0 <? CdReadSync_result o); [congruence |].
           destruct (_ <? _); [congruence |].
           destruct (normalize 0 _ _ _) as [[a1 a2]|] eqn:En; [| discriminate].
           apply normalize_fuel_mono in En. rewrite En in E.
           rewrite E in E0. injection E0 as _ <- _. injection Hstep as <- _.
           clear E En.
           destruct Hinv as [Hl Hn].
           pose proof (feed_blocks_range o Hwf).
           assert (0 <= next_sector s mod stream_length s < stream_length s)
             by (apply Z.mod_pos_bound; lia).
           unfold cursor_inv, issued_ctx; simpl. lia.
        -- rewrite (Audio_FeedStream_issue fuel o s Hinv Hpos Hwf Hi) in Hstep.
           injection Hstep as <- _.
           destruct Hinv as [Hl Hn].
           pose proof (feed_blocks_range o Hwf).
           assert (0 <= next_sector s mod stream_length s < stream_length s)
             by (apply Z.mod_pos_bound; lia).
           unfold cursor_inv, issued_ctx; simpl. lia.
      * assert (H0 : stream_length s = 0) by (destruct Hinv; lia).
        rewrite (Audio_FeedStream_zero_diverges fuel o s Hinv H0 Hi) in Hstep.
        discriminate.
    + destruct (Audio_FeedStream_idle fuel o s Hn) as [b E].
      rewrite E in Hstep. injection Hstep as <- _. exact Hinv.
  - unfold cd_read_handler in Hstep.
    destruct (negb _); injection Hstep as <- _; exact Hinv.
Qed.

Lemma reachable_cursor_inv (s : StreamReadContext) :
  reachable s -> cursor_inv s.
Proof.
  induction 1 as [file_pos vag config sctx read_ctx tr H
                 | fuel e s s' tr _ IH Hwf Hstep].
  - eapply cursor_inv_setup; eassumption.
  - eapply cursor_inv_step; eassumption.
Qed.

Lemma cursor_inv_issued (o : Env) (s : StreamReadContext) :
  cursor_inv s -> 1 <= stream_length s -> wf_env o ->
  cursor_inv (issued_ctx o s).
Proof.
  intros [Hl Hn] Hpos Hwf.
  pose proof (feed_blocks_range o Hwf).
  assert (0 <= next_sector s mod stream_length s < stream_length s)
    by (apply Z.mod_pos_bound; lia).
  unfold cursor_inv, issued_ctx; simpl. lia.
Qed.

Lemma cd_read_handler_ctx (ev : CdlIntrResult) (s : StreamReadContext) :
  fst (cd_read_handler ev s) = s.
Proof. unfold cd_read_handler. destruct (negb _); reflexivity. Qed.


(** Contexts reached by setting a concrete stream up. *)
Ltac reach_by_load p v :=
  eapply (reach_load p v); vm_compute; reflexivity.

(** Closed comparisons of integers. *)
Ltac by_compute :=
  repeat split; vm_compute; solve [reflexivity | intro; discriminate].

Ltac wf_env_by_compute := by_compute.
Ltac issues_by_compute := by_compute.

(** ** C1: a disk error and the read cursor *)

(** C1, as stated, fails.  [vag_40] is opened at sector 100; a tick with 24
    sectors free issues the read of sectors 101 to 124 and advances the
    cursor to 24 at once; the completion reports a disk error; the next
    tick requests sector 125 onwards, not sector 101 again. *)
Lemma disk_error_not_retried :
  Audio_LoadStream_setup (Some 100) vag_40
  = Load_Ok
      {| spu_address := STREAM_BUFFER_ADDR; channel_mask := 3;
         cfg_interleave := 4096; buffer_size := RAM_BUFFER_SIZE;
         refill_threshold := 0; cfg_sample_rate := 44100 |}
      {| ctx_sample_rate := 44100; samples := 71680 |}
      (ctx_at 0 0)
      [ CdControl_Setloc 100; CdReadCallback false; CdRead 1; CdReadSync_wait;
        SPU_CH_VOL 0 0x3fff 0; SPU_CH_VOL 1 0 0x3fff; Stream_Init_call ] /\
  Audio_FeedStream 1 (env_free 24 24) (ctx_at 0 0)
  = Some (true, ctx_at 24 24,
          [ CdControl_Setloc 101; CdReadCallback true; CdRead 24 ]) /\
  cd_read_handler CdlDiskError (ctx_at 24 24) = (ctx_at 24 24, []) /\
  Audio_FeedStream 1 (env_free 24 24) (ctx_at 24 24)
  = Some (true, ctx_at 40 16,
          [ CdControl_Setloc 125; CdReadCallback true; CdRead 16 ]) /\
  next_sector (ctx_at 24 24) <> next_sector (ctx_at 0 0).
Proof.
  repeat split; try (vm_compute; reflexivity).
  vm_compute. discriminate.
Qed.

(** C1, amended.  The completion callback never changes the read context,
    whatever it is told, and on a disk error it reports nothing to the ring
    buffer.  The cursor was already advanced when the read was issued, so
    the tick that follows a completion (failed or not) issues its read at
    the offset of the read before plus its length, modulo the stream
    length.  That is the offset of the read before, the same region again,
    only when that read had length 0 or covered the whole stream. *)
Theorem cd_read_handler_keeps_cursor
  (ev : CdlIntrResult) (o1 o2 : Env) (s : StreamReadContext) (fuel : nat) :
  reachable s -> 1 <= stream_length s ->
  wf_env o1 -> issues o1 -> wf_env o2 -> issues o2 ->
  exists s1 n1 s2 n2,
    Audio_FeedStream (S fuel) o1 s
    = Some (true, s1,
            [ CdControl_Setloc
                (s32 (start_lba s + next_sector s mod stream_length s));
              CdReadCallback true; CdRead n1 ]) /\
    next_sector s1 = next_sector s mod stream_length s + n1 /\
    fst (cd_read_handler ev s1) = s1 /\
    snd (cd_read_handler CdlDiskError s1) = [] /\
    Audio_FeedStream (S fuel) o2 (fst (cd_read_handler ev s1))
    = Some (true, s2,
            [ CdControl_Setloc
                (s32 (start_lba s + (next_sector s + n1) mod stream_length s));
              CdReadCallback true; CdRead n2 ]) /\
    0 <= n1 <= stream_length s /\
    ((next_sector s + n1) mod stream_length s
     = next_sector s mod stream_length s <->
     n1 = 0 \/ n1 = stream_length s).
Proof.
  intros Hr Hpos Hwf1 Hi1 Hwf2 Hi2.
  pose proof (reachable_cursor_inv s Hr) as Hinv.
  pose proof (cursor_inv_issued o1 s Hinv Hpos Hwf1) as Hinv1.
  exists (issued_ctx o1 s), (refill_length (issued_ctx o1 s)).
  exists (issued_ctx o2 (issued_ctx o1 s)).
  exists (refill_length (issued_ctx o2 (issued_ctx o1 s))).
  split; [apply Audio_FeedStream_issue; assumption |].
  split; [reflexivity |].
  split; [apply cd_read_handler_ctx |].
  split; [reflexivity |].
  pose proof (feed_blocks_range o1 Hwf1) as Hfeed.
  assert (Hm : 0 <= next_sector s mod stream_length s < stream_length s)
    by (apply Z.mod_pos_bound; lia).
  split.
  { rewrite cd_read_handler_ctx.
    rewrite Audio_FeedStream_issue by assumption.
    unfold issued_calls.
    cbn [issued_ctx next_sector stream_length start_lba refill_length].
    rewrite Z.add_mod_idemp_l by lia. reflexivity. }
  cbn [issued_ctx refill_length].
  set (c := next_sector s mod stream_length s) in *.
  set (n1 := Z.min (Stream_GetFeedPtr_result o1 / 2048) (stream_length s - c)).
  assert (Hn1 : 0 <= n1 <= stream_length s - c) by (unfold n1; lia).
  split; [lia |].
  rewrite <- (Z.add_mod_idemp_l (next_sector s)) by lia. fold c.
  destruct (Z.eq_dec (c + n1) (stream_length s)) as [E | N].
  - rewrite E, Z.mod_same by lia. lia.
  - rewrite Z.mod_small by lia. lia.
Qed.

Lemma cd_read_handler_keeps_cursor_witness :
  exists s1 n1 s2 n2,
    Audio_FeedStream 1 (env_free 24 24) (ctx_at 0 0)
    = Some (true, s1,
            [ CdControl_Setloc (s32 (101 + 0 mod 40));
              CdReadCallback true; CdRead n1 ]) /\
    next_sector s1 = 0 mod 40 + n1 /\
    fst (cd_read_handler CdlDiskError s1) = s1 /\
    snd (cd_read_handler CdlDiskError s1) = [] /\
    Audio_FeedStream 1 (env_free 30 30) (fst (cd_read_handler CdlDiskError s1))
    = Some (true, s2,
            [ CdControl_Setloc (s32 (101 + (0 + n1) mod 40));
              CdReadCallback true; CdRead n2 ]) /\
    0 <= n1 <= 40 /\
    ((0 + n1) mod 40 = 0 mod 40 <-> n1 = 0 \/ n1 = 40).
Proof.
  apply (cd_read_handler_keeps_cursor CdlDiskError (env_free 24 24)
           (env_free 30 30) (ctx_at 0 0) 0).
  - reach_by_load 100 vag_40.
  - by_compute.
  - wf_env_by_compute.
  - issues_by_compute.
  - wf_env_by_compute.
  - issues_by_compute.
Defined.

(** ** C2: the range of the read cursor *)

(** C2, as stated, fails.  [vag_40] is 40 sectors long; with the whole ring
    buffer free (48 sectors) the first tick reads all 40 sectors and leaves
    the cursor at 40, which is not below the stream length. *)
Lemma cursor_reaches_stream_length :
  reachable (ctx_at 0 0) /\
  Audio_FeedStream 1 (env_free 48 48) (ctx_at 0 0)
  = Some (true, ctx_at 40 40,
          [ CdControl_Setloc 101; CdReadCallback true; CdRead 40 ]) /\
  reachable (ctx_at 40 40) /\
  ~ (0 <= next_sector (ctx_at 40 40) < stream_length (ctx_at 40 40)).
Proof.
  assert (H0 : reachable (ctx_at 0 0)) by reach_by_load 100 vag_40.
  assert (H1 : Audio_FeedStream 1 (env_free 48 48) (ctx_at 0 0)
               = Some (true, ctx_at 40 40,
                       [ CdControl_Setloc 101; CdReadCallback true; CdRead 40 ]))
    by (vm_compute; reflexivity).
  repeat split; try assumption.
  - eapply reach_step with (fuel := 1%nat) (e := Tick (env_free 48 48)).
    + exact H0.
    + wf_env_by_compute.
    + unfold step. rewrite H1. reflexivity.
  - simpl. lia.
Qed.

(** C2, amended.  In every reachable context the cursor lies between 0 and
    the stream length, both included: it equals the stream length after a
    read that ends at the end of the stream.  The wrap to 0 is made by the
    normalization loop of the next tick that issues a read, so that the
    sector offset a read is issued at is always below the stream length. *)
Theorem cursor_within_stream (s : StreamReadContext) :
  reachable s ->
  0 <= next_sector s <= stream_length s /\
  forall (fuel : nat) (o : Env),
    wf_env o -> issues o -> 1 <= stream_length s ->
    exists c s' n,
      0 <= c < stream_length s /\
      c = next_sector s mod stream_length s /\
      Audio_FeedStream (S fuel) o s
      = Some (true, s',
              [ CdControl_Setloc (s32 (start_lba s + c));
                CdReadCallback true; CdRead n ]).
Proof.
  intros Hr. pose proof (reachable_cursor_inv s Hr) as Hinv.
  split; [apply Hinv |].
  intros fuel o Hwf Hi Hpos.
  exists (next_sector s mod stream_length s), (issued_ctx o s).
  exists (refill_length (issued_ctx o s)).
  split; [apply Z.mod_pos_bound; lia |].
  split; [reflexivity |].
  apply Audio_FeedStream_issue; assumption.
Qed.

Lemma cursor_within_stream_witness :
  0 <= next_sector (ctx_at 0 0) <= stream_length (ctx_at 0 0) /\
  forall (fuel : nat) (o : Env),
    wf_env o -> issues o -> 1 <= stream_length (ctx_at 0 0) ->
    exists c s' n,
      0 <= c < stream_length (ctx_at 0 0) /\
      c = next_sector (ctx_at 0 0) mod stream_length (ctx_at 0 0) /\
      Audio_FeedStream (S fuel) o (ctx_at 0 0)
      = Some (true, s',
              [ CdControl_Setloc (s32 (start_lba (ctx_at 0 0) + c));
                CdReadCallback true; CdRead n ]).
Proof.
  apply (cursor_within_stream (ctx_at 0 0)).
  reach_by_load 100 vag_40.
Defined.

(** ** C3: the tag of the header *)

(** C3, as stated, fails.  [vag_untagged] carries 0 where "VAGi" and the
    version are expected; opening it proceeds exactly as for [vag_40]: the
    stream is set up and the fill loop reads its 40 sectors. *)
Lemma untagged_header_opens :
  magic vag_untagged <> VAGi_magic /\
  Audio_LoadStream 1 (Some 100) vag_untagged
    [ env_free 48 48; mkEnv 1 0 0; env_free 8 8 ]
  = Open_Ok
      {| spu_address := STREAM_BUFFER_ADDR; channel_mask := 3;
         cfg_interleave := 4096; buffer_size := RAM_BUFFER_SIZE;
         refill_threshold := 0; cfg_sample_rate := 44100 |}
      {| ctx_sample_rate := 44100; samples := 71680 |}
      (ctx_at 40 40)
      [ CdControl_Setloc 100; CdReadCallback false; CdRead 1; CdReadSync_wait;
        SPU_CH_VOL 0 0x3fff 0; SPU_CH_VOL 1 0 0x3fff; Stream_Init_call;
        CdControl_Setloc 101; CdReadCallback true; CdRead 40 ].
Proof.
  split.
  - vm_compute. discriminate.
  - vm_compute. reflexivity.
Qed.

(** C3, amended.  [Audio_LoadStream] never looks at the magic or the
    version of the header: whatever they hold, opening has the same
    outcome.  The one failure it detects is a path that is not found. *)
Theorem Audio_LoadStream_ignores_tag
  (fuel : nat) (file : option Z) (vag : VAG_Header) (envs : list Env) :
  (forall m v : Z,
      Audio_LoadStream fuel file (with_tag m v vag) envs
      = Audio_LoadStream fuel file vag envs) /\
  (Audio_LoadStream fuel file vag envs = Open_NotFound <-> file = None).
Proof.
  split.
  - intros m v.
    unfold Audio_LoadStream, Audio_LoadStream_setup, stream_length_of,
      num_chunks_of, num_channels_of, with_tag.
    cbn [interleave size sample_rate channels]. reflexivity.
  - unfold Audio_LoadStream, Audio_LoadStream_setup. split.
    + destruct file as [file_pos |]; [| reflexivity].
      destruct (u32 (interleave vag) =? 0); [discriminate |].
      destruct (channel_loop _ _ _) as [mask vols].
      destruct (fill_loop _ _ _) as [[c t] |]; discriminate.
    + intros ->. reflexivity.
Qed.

(** ** C4: the length of an issued read *)

(** C4, as stated, fails.  The free space that is tested against the
    threshold ([Stream_GetRefillLength]) is not the operand of the minimum:
    with 30 sectors free, of which 5 can be written in one piece, and 40
    sectors left in the stream, the read issued is of 5 sectors, not of
    min (30, 40) = 30. *)
Lemma read_length_not_min_of_free_space :
  reachable (ctx_at 0 0) /\
  wf_env (env_free 30 5) /\
  issues (env_free 30 5) /\
  Stream_GetRefillLength_result (env_free 30 5) / 2048 = 30 /\
  Audio_FeedStream 1 (env_free 30 5) (ctx_at 0 0)
  = Some (true, ctx_at 5 5,
          [ CdControl_Setloc 101; CdReadCallback true; CdRead 5 ]) /\
  5 <> Z.min 30 (stream_length (ctx_at 0 0) - next_sector (ctx_at 0 0)).
Proof.
  split; [reach_by_load 100 vag_40 |].
  split; [wf_env_by_compute |].
  split; [issues_by_compute |].
  split; [vm_compute; reflexivity |].
  split; [vm_compute; reflexivity |].
  vm_compute. discriminate.
Qed.

(** C4, amended.  A tick that finds the device idle and the free space at
    or above the threshold issues one read, at the normalized cursor, whose
    length is the smaller of the sectors the ring buffer can take in one
    piece ([Stream_GetFeedPtr], a query of its own) and the sectors left
    before the end of the stream.  The read ends at or before the end of
    the stream, and when it is cut there the next read starts at offset
    0. *)
Theorem read_length_is_min (fuel : nat) (o : Env) (s : StreamReadContext) :
  reachable s -> 1 <= stream_length s -> wf_env o -> issues o ->
  let writable_blocks := Stream_GetFeedPtr_result o / 2048 in
  let c := next_sector s mod stream_length s in
  let n := Z.min writable_blocks (stream_length s - c) in
  Audio_FeedStream (S fuel) o s
  = Some (true,
          {| start_lba := start_lba s; stream_length := stream_length s;
             next_sector := c + n; refill_length := n |},
          [ CdControl_Setloc (s32 (start_lba s + c));
            CdReadCallback true; CdRead n ]) /\
  c + n <= stream_length s /\
  (stream_length s - c <= writable_blocks ->
   (c + n) mod stream_length s = 0).
Proof.
  intros Hr Hpos Hwf Hi. cbv zeta.
  pose proof (reachable_cursor_inv s Hr) as Hinv.
  split; [| split].
  - apply (Audio_FeedStream_issue fuel o s Hinv Hpos Hwf Hi).
  - lia.
  - intros Hcut. rewrite Z.min_r by lia.
    replace (next_sector s mod stream_length s
             + (stream_length s - next_sector s mod stream_length s))
      with (stream_length s) by lia.
    apply Z.mod_same. lia.
Qed.

Lemma read_length_is_min_witness :
  Audio_FeedStream 1 (env_free 30 20) (ctx_at 35 35)
  = Some (true, ctx_at 40 5,
          [ CdControl_Setloc 136; CdReadCallback true; CdRead 5 ]) /\
  35 + 5 <= 40 /\
  (40 - 35 <= 20 -> (35 + 5) mod 40 = 0).
Proof.
  apply (read_length_is_min 0 (env_free 30 20) (ctx_at 35 35)).
  - eapply reach_step with (fuel := 1%nat) (e := Tick (env_free 35 35))
                           (read_ctx := ctx_at 0 0).
    + reach_by_load 100 vag_40.
    + wf_env_by_compute.
    + vm_compute. reflexivity.
  - by_compute.
  - wf_env_by_compute.
  - issues_by_compute.
Defined.

(** ** C6: reads of length 0 *)




(** ** C7: the scenario at sector 35 of 40 *)

(** C7, as stated, fails.  With the cursor at 35 in a stream of 40 sectors
    and a ring buffer that reports 20 sectors free, the free space is below
    the threshold of 24 sectors: the tick returns [false], issues no read
    and leaves the cursor at 35. *)
Lemma wrap_scenario_below_threshold :
  reachable (ctx_at 35 35) /\
  wf_env (env_free 20 20) /\
  Stream_GetRefillLength_result (env_free 20 20) / 2048 = 20 /\
  Stream_GetFeedPtr_result (env_free 20 20) / 2048 = 20 /\
  Audio_FeedStream 1 (env_free 20 20) (ctx_at 35 35)
  = Some (false, ctx_at 35 35, []).
Proof.
  split.
  - eapply reach_step with (fuel := 1%nat) (e := Tick (env_free 35 35))
                           (read_ctx := ctx_at 0 0).
    + reach_by_load 100 vag_40.
    + wf_env_by_compute.
    + vm_compute. reflexivity.
  - split; [wf_env_by_compute |].
    repeat split; vm_compute; reflexivity.
Qed.

(** C7, amended.  With the cursor at 35 in a stream of 40 sectors, a ring
    buffer with at least the threshold of 24 sectors free, of which 20 can
    be written in one piece, and the device idle, the tick asks for 5
    sectors at offset 35, not for 20; after the completion of that read,
    whatever it reports, the next tick that issues a read does so at
    offset 0. *)
Theorem wrap_scenario
  (fuel : nat) (lba rl : Z) (o o' : Env) (ev : CdlIntrResult) :
  wf_env o -> issues o -> Stream_GetFeedPtr_result o / 2048 = 20 ->
  wf_env o' -> issues o' ->
  exists s1 s2 n2,
    Audio_FeedStream (S fuel) o
      {| start_lba := lba; stream_length := 40; next_sector := 35;
         refill_length := rl |}
    = Some (true, s1,
            [ CdControl_Setloc (s32 (lba + 35)); CdReadCallback true;
              CdRead 5 ]) /\
    refill_length s1 = 5 /\
    Audio_FeedStream (S fuel) o' (fst (cd_read_handler ev s1))
    = Some (true, s2,
            [ CdControl_Setloc (s32 (lba + 0)); CdReadCallback true;
              CdRead n2 ]).
Proof.
  intros Hwf Hi H20 Hwf' Hi'.
  set (s := {| start_lba := lba; stream_length := 40; next_sector := 35;
               refill_length := rl |}).
  assert (Hinv : cursor_inv s) by (unfold cursor_inv; simpl; lia).
  assert (Hpos : 1 <= stream_length s) by (simpl; lia).
  pose proof (cursor_inv_issued o s Hinv Hpos Hwf) as Hinv1.
  assert (E1 : issued_ctx o s
               = {| start_lba := lba; stream_length := 40; next_sector := 40;
                    refill_length := 5 |}).
  { unfold issued_ctx. simpl. rewrite H20. reflexivity. }
  exists (issued_ctx o s), (issued_ctx o' (issued_ctx o s)).
  exists (refill_length (issued_ctx o' (issued_ctx o s))).
  split; [| split].
  - rewrite (Audio_FeedStream_issue fuel o s Hinv Hpos Hwf Hi).
    unfold issued_calls. simpl. rewrite H20. reflexivity.
  - rewrite E1. reflexivity.
  - rewrite cd_read_handler_ctx.
    rewrite Audio_FeedStream_issue by (assumption || (rewrite E1; simpl; lia)).
    unfold issued_calls. rewrite E1. reflexivity.
Qed.

Lemma wrap_scenario_witness :
  exists s1 s2 n2,
    Audio_FeedStream 1 (env_free 24 20) (ctx_at 35 35)
    = Some (true, s1,
            [ CdControl_Setloc (s32 (101 + 35)); CdReadCallback true;
              CdRead 5 ]) /\
    refill_length s1 = 5 /\
    Audio_FeedStream 1 (env_free 24 24) (fst (cd_read_handler CdlComplete s1))
    = Some (true, s2,
            [ CdControl_Setloc (s32 (101 + 0)); CdReadCallback true;
              CdRead n2 ]).
Proof.
  apply (wrap_scenario 0 101 35 (env_free 24 20) (env_free 24 24) CdlComplete).
  - wf_env_by_compute.
  - issues_by_compute.
  - vm_compute. reflexivity.
  - wf_env_by_compute.
  - issues_by_compute.
Defined.

(** ** C8: loop closure *)

Lemma Audio_FeedStream_fuel_mono (fuel : nat) (o : Env) (s : StreamReadContext) r :
  Audio_FeedStream fuel o s = Some r -> Audio_FeedStream (S fuel) o s = Some r.
Proof.
  unfold Audio_FeedStream.
  destruct (0 <? CdReadSync_result o); [trivial |].
  destruct (_ <? _); [trivial |].
  destruct (normalize fuel _ _ _) as [[a b] |] eqn:E; [| discriminate].
  rewrite (normalize_fuel_mono _ _ _ _ _ E). trivial.
Qed.

(** What a tick that returns has done. *)
Lemma Audio_FeedStream_inv (fuel : nat) (o : Env) (s s' : StreamReadContext) b tr :
  cursor_inv s -> wf_env o ->
  Audio_FeedStream fuel o s = Some (b, s', tr) ->
  (s' = s /\ tr = []) \/
  (1 <= stream_length s /\ issues o /\ b = true /\
   s' = issued_ctx o s /\ tr = issued_calls o s).
Proof.
  intros Hinv Hwf H.
  destruct (issues_dec o) as [Hi | Hn].
  - destruct (Z_le_dec 1 (stream_length s)) as [Hpos | Hz].
    + right. apply Audio_FeedStream_fuel_mono in H.
      rewrite (Audio_FeedStream_issue fuel o s Hinv Hpos Hwf Hi) in H.
      injection H as <- <- <-.
      split; [exact Hpos |]. split; [exact Hi |]. repeat split.
    + assert (H0 : stream_length s = 0) by (destruct Hinv; lia).
      rewrite (Audio_FeedStream_zero_diverges fuel o s Hinv H0 Hi) in H.
      discriminate.
  - left. destruct (Audio_FeedStream_idle fuel o s Hn) as [b' E].
    rewrite E in H. injection H as _ <- <-. split; reflexivity.
Qed.










(** ** C9: the channel count *)

Lemma lor_shiftl_1 (m : Z) : 0 <= m -> Z.lor (Z.shiftl m 1) 1 = 2 * m + 1.
Proof. intros Hm. destruct m as [| q | q]; [reflexivity | reflexivity | lia]. Qed.

Lemma channel_loop_panned (n : nat) :
  forall ch mask,
    panned_channels (snd (channel_loop n ch mask)) = Z.of_nat n.
Proof.
  induction n as [| n IH]; intros ch mask; [reflexivity |].
  cbn [channel_loop].
  specialize (IH (ch + 1) (u32 (Z.lor (Z.shiftl mask 1) 1))).
  destruct (channel_loop n (ch + 1) (u32 (Z.lor (Z.shiftl mask 1) 1)))
    as [m tr].
  cbn [snd] in *. cbn [panned_channels]. rewrite IH, Nat2Z.inj_succ. lia.
Qed.

(** The mask after [n] more channels, from a mask of [j] bits: one bit for
    each channel, 32 bits at most. *)
Lemma channel_loop_mask (n : nat) :
  forall ch j, 0 <= j <= 32 ->
    fst (channel_loop n ch (Z.ones j)) = Z.ones (Z.min (j + Z.of_nat n) 32).
Proof.
  induction n as [| n IH]; intros ch j Hj.
  - simpl. rewrite Z.add_0_r, Z.min_l by lia. reflexivity.
  - cbn [channel_loop].
    assert (Hp : 0 < 2 ^ j) by (apply Z.pow_pos_nonneg; lia).
    assert (E : u32 (Z.lor (Z.shiftl (Z.ones j) 1) 1)
                = Z.ones (Z.min (j + 1) 32)).
    { rewrite lor_shiftl_1 by (rewrite Z.ones_equiv; lia).
      destruct (Z.eq_dec j 32) as [-> | N].
      - vm_compute. reflexivity.
      - rewrite Z.min_l by lia. rewrite !Z.ones_equiv.
        rewrite Z.pow_add_r by lia. change (2 ^ 1) with 2.
        assert (2 ^ j <= 2 ^ 31) by (apply Z.pow_le_mono_r; lia).
        replace (Z.pred (2 ^ j * 2)) with (2 * Z.pred (2 ^ j) + 1) by lia.
        apply u32_small. change (2 ^ 31) with 2147483648 in *.
        change (2 ^ 32) with 4294967296. lia. }
    rewrite E.
    specialize (IH (ch + 1) (Z.min (j + 1) 32) ltac:(lia)).
    destruct (channel_loop n (ch + 1) (Z.ones (Z.min (j + 1) 32))) as [m tr].
    cbn [fst] in *. rewrite IH. f_equal. rewrite Nat2Z.inj_succ. lia.
Qed.

Lemma panned_channels_app (tr tr' : list call) :
  panned_channels (tr ++ tr') = panned_channels tr + panned_channels tr'.
Proof.
  induction tr as [| c tr IH]; [reflexivity |].
  destruct c; cbn [panned_channels app]; rewrite IH; lia.
Qed.

(** C9.  A channel count of 0 in the header stands for 2, any other count
    for itself; that number is the number of channels panned, gives the
    channel mask its bits (as many as its 32 bits hold), and is the factor
    of the stream length.  A header with 0 channels is set up exactly as
    the same header with 2. *)
Theorem channels_zero_is_stereo (file_pos : Z) (vag : VAG_Header) :
  wf_header vag ->
  let n := if channels vag =? 0 then 2 else channels vag in
  num_channels_of vag = n /\
  (interleave vag <> 0 ->
   exists config sctx read_ctx tr,
     Audio_LoadStream_setup (Some file_pos) vag
     = Load_Ok config sctx read_ctx tr /\
     channel_mask config = Z.ones (Z.min n 32) /\
     panned_channels tr = n /\
     stream_length read_ctx
     = s32 (u32 (u32 (u32 (s32 (n * num_chunks_of vag)) * interleave vag)
                 + 2047) / 2048)) /\
  (channels vag = 0 ->
   Audio_LoadStream_setup (Some file_pos) vag
   = Audio_LoadStream_setup (Some file_pos) (with_channels 2 vag)).
Proof.
  intros (_ & _ & Hi & _ & _ & Hc). cbv zeta.
  unfold in_u32, in_u16 in *.
  assert (En : num_channels_of vag
               = if channels vag =? 0 then 2 else channels vag).
  { unfold num_channels_of. rewrite u16_small by lia. reflexivity. }
  assert (Hn : 1 <= num_channels_of vag).
  { rewrite En. destruct (Z.eqb_spec (channels vag) 0); lia. }
  split; [exact En |]. split.
  - intros Hnz. unfold Audio_LoadStream_setup.
    rewrite (u32_small (interleave vag)) by lia.
    destruct (Z.eqb_spec (interleave vag) 0) as [E0 | _]; [contradiction |].
    pose proof (channel_loop_mask (Z.to_nat (num_channels_of vag)) 0 0
                  ltac:(lia)) as Hm.
    pose proof (channel_loop_panned (Z.to_nat (num_channels_of vag)) 0
                  (Z.ones 0)) as Hp.
    change (Z.ones 0) with 0 in Hm, Hp.
    destruct (channel_loop (Z.to_nat (num_channels_of vag)) 0 0)
      as [mask vols].
    cbn [fst snd] in Hm, Hp. rewrite Z2Nat.id in Hm, Hp by lia.
    rewrite Z.add_0_l in Hm.
    eexists _, _, _, _. split; [reflexivity |].
    cbn [channel_mask stream_length]. rewrite <- En.
    split; [exact Hm |]. split.
    + rewrite !panned_channels_app, Hp. cbn [panned_channels]. lia.
    + unfold stream_length_of. rewrite (u32_small (interleave vag)) by lia.
      reflexivity.
  - intros E0.
    unfold Audio_LoadStream_setup, stream_length_of, num_chunks_of,
      num_channels_of, with_channels.
    cbn [interleave size sample_rate channels]. rewrite E0. reflexivity.
Qed.

Lemma channels_zero_is_stereo_witness :
  num_channels_of (with_channels 0 vag_40) = 2 /\
  (interleave (with_channels 0 vag_40) <> 0 ->
   exists config sctx read_ctx tr,
     Audio_LoadStream_setup (Some 100) (with_channels 0 vag_40)
     = Load_Ok config sctx read_ctx tr /\
     channel_mask config = Z.ones (Z.min 2 32) /\
     panned_channels tr = 2 /\
     stream_length read_ctx
     = s32 (u32 (u32 (u32 (s32 (2 * num_chunks_of (with_channels 0 vag_40)))
                      * interleave (with_channels 0 vag_40))
                 + 2047) / 2048)) /\
  (channels (with_channels 0 vag_40) = 0 ->
   Audio_LoadStream_setup (Some 100) (with_channels 0 vag_40)
   = Audio_LoadStream_setup (Some 100) (with_channels 2 (with_channels 0 vag_40))).
Proof.
  apply (channels_zero_is_stereo 100 (with_channels 0 vag_40)).
  by_compute.
Defined.

(** ** C10: termination of a tick *)

(** With a stream length of at least 1 a tick returns from any context. *)
Lemma Audio_FeedStream_total (o : Env) (s : StreamReadContext) :
  1 <= stream_length s < 2 ^ 31 ->
  exists fuel, Audio_FeedStream fuel o s <> None.
Proof.
  intros Hlen.
  set (ml := s32 (stream_length s - next_sector s)).
  exists (Z.to_nat (1 - ml)). unfold Audio_FeedStream.
  destruct (0 <? CdReadSync_result o); [discriminate |].
  destruct (_ <? _); [discriminate |].
  fold ml.
  pose proof (normalize_total (stream_length s) Hlen (Z.to_nat (1 - ml))
                (next_sector s) ml (s32_range _)) as Hn.
  destruct (normalize _ _ _ _) as [[a b] |]; [discriminate |].
  exfalso. apply Hn; [lia | reflexivity].
Qed.

(** C10.  A tick returns from any context whose stream length is at least
    1.  In a reachable context, a tick that finds the device idle and the
    free space at or above the threshold returns if and only if the stream
    length is at least 1: with a stream length of 0 the normalization loop
    is never left, whatever the fuel. *)
Theorem Audio_FeedStream_terminates_iff (o : Env) (s : StreamReadContext) :
  wf_env o -> issues o ->
  (1 <= stream_length s < 2 ^ 31 ->
   exists fuel, Audio_FeedStream fuel o s <> None) /\
  (reachable s ->
   ((exists fuel, Audio_FeedStream fuel o s <> None) <-> 1 <= stream_length s)) /\
  (reachable s -> stream_length s = 0 ->
   forall fuel, Audio_FeedStream fuel o s = None).
Proof.
  intros Hwf Hi.
  split; [apply Audio_FeedStream_total |].
  split.
  - intros Hr. pose proof (reachable_cursor_inv s Hr) as Hinv.
    split.
    + intros [fuel Hsome].
      destruct (Z_le_dec 1 (stream_length s)) as [Hpos | Hz]; [exact Hpos |].
      exfalso. apply Hsome.
      apply Audio_FeedStream_zero_diverges; try assumption.
      destruct Hinv; lia.
    + intros Hpos. exists 1%nat.
      rewrite (Audio_FeedStream_issue 0 o s Hinv Hpos Hwf Hi). discriminate.
  - intros Hr H0 fuel.
    apply Audio_FeedStream_zero_diverges; try assumption.
    apply reachable_cursor_inv. exact Hr.
Qed.

(** A header that announces no samples is set up with a stream length of
    0, and the first tick of the fill loop that passes both tests never
    returns. *)
Lemma Audio_FeedStream_terminates_iff_witness :
  Audio_LoadStream_setup (Some 100) vag_empty
  = Load_Ok
      {| spu_address := STREAM_BUFFER_ADDR; channel_mask := 3;
         cfg_interleave := 4096; buffer_size := RAM_BUFFER_SIZE;
         refill_threshold := 0; cfg_sample_rate := 44100 |}
      {| ctx_sample_rate := 44100; samples := 0 |}
      ctx_empty
      [ CdControl_Setloc 100; CdReadCallback false; CdRead 1; CdReadSync_wait;
        SPU_CH_VOL 0 0x3fff 0; SPU_CH_VOL 1 0 0x3fff; Stream_Init_call ] /\
  reachable ctx_empty /\
  forall fuel, Audio_FeedStream fuel (env_free 48 48) ctx_empty = None.
Proof.
  split; [vm_compute; reflexivity |].
  assert (Hr : reachable ctx_empty) by reach_by_load 100 vag_empty.
  split; [exact Hr |].
  apply (Audio_FeedStream_terminates_iff (env_free 48 48) ctx_empty).
  - wf_env_by_compute.
  - issues_by_compute.
  - exact Hr.
  - reflexivity.
Defined.

(** ** C5: the geometry of a stream *)

(** The mask of one byte lane selects that byte. *)
Lemma land_lane (x k : Z) :
  0 <= k -> Z.land x (Z.shiftl (Z.ones 8) k) = (x / 2 ^ k) mod 2 ^ 8 * 2 ^ k.
Proof.
  intros Hk.
  rewrite <- Z.land_ones, <- Z.shiftr_div_pow2, <- Z.shiftl_mul_pow2 by lia.
  apply Z.bits_inj'. intros n Hn.
  rewrite Z.shiftl_spec, !Z.land_spec, Z.shiftl_spec by lia.
  destruct (Z.ltb_spec n k) as [Hlt | Hge].
  - rewrite (Z.testbit_neg_r (Z.ones 8)) by lia.
    rewrite !andb_false_r. reflexivity.
  - rewrite Z.shiftr_spec by lia.
    replace (n - k + k) with n by lia. reflexivity.
Qed.

(** Or-ing lanes that do not overlap adds them. *)
Lemma lor_lane (a b k : Z) :
  0 <= k -> 0 <= a < 2 ^ k -> Z.lor (b * 2 ^ k) a = b * 2 ^ k + a.
Proof.
  intros Hk Ha.
  rewrite <- Z.add_lor_land.
  assert (E : Z.land (b * 2 ^ k) a = 0).
  { apply Z.bits_inj'. intros n Hn.
    rewrite Z.land_spec, Z.bits_0.
    destruct (Z.ltb_spec n k) as [Hlt | Hge].
    - rewrite Z.mul_pow2_bits_low by lia. reflexivity.
    - rewrite <- (Z.mod_small a (2 ^ k)) by lia.
      rewrite Z.mod_pow2_bits_high by lia. apply andb_false_r. }
  rewrite E. lia.
Qed.

Lemma lor_aligned (hi a k : Z) :
  0 <= k /\ 0 <= a < 2 ^ k /\ hi mod 2 ^ k = 0 -> Z.lor hi a = hi + a.
Proof.
  intros (Hk & Ha & Hhi).
  assert (Hp : 0 < 2 ^ k) by (apply Z.pow_pos_nonneg; lia).
  rewrite (Z.div_mod hi (2 ^ k)) by lia.
  rewrite Hhi, Z.add_0_r, (Z.mul_comm (2 ^ k)).
  apply lor_lane; assumption.
Qed.

Ltac lane_arith :=
  change (2 ^ 8) with 256 in *; change (2 ^ 16) with 65536 in *;
  change (2 ^ 24) with 16777216 in *;
  repeat split; try lia; Z.div_mod_to_equations; lia.

(** [SWAP_ENDIAN] reverses the four bytes of a word: the word the host
    reads from big-endian bytes becomes the number they encode. *)
Lemma SWAP_ENDIAN_bytes (b0 b1 b2 b3 : Z) :
  is_byte b0 -> is_byte b1 -> is_byte b2 -> is_byte b3 ->
  SWAP_ENDIAN (le32 b0 b1 b2 b3) = be32 b0 b1 b2 b3.
Proof.
  unfold is_byte. intros H0 H1 H2 H3.
  assert (Hx : 0 <= le32 b0 b1 b2 b3 < 2 ^ 32) by (unfold le32; lia).
  unfold SWAP_ENDIAN. rewrite (u32_small _ Hx).
  change 0x000000ff with (Z.shiftl (Z.ones 8) 0).
  change 0x0000ff00 with (Z.shiftl (Z.ones 8) 8).
  change 0x00ff0000 with (Z.shiftl (Z.ones 8) 16).
  change 0xff000000 with (Z.shiftl (Z.ones 8) 24).
  rewrite !land_lane by lia.
  assert (E0 : (le32 b0 b1 b2 b3 / 2 ^ 0) mod 2 ^ 8 = b0)
    by (unfold le32; change (2 ^ 0) with 1; change (2 ^ 8) with 256 in *;
        change (2 ^ 16) with 65536; change (2 ^ 24) with 16777216;
        Z.div_mod_to_equations; lia).
  assert (E1 : (le32 b0 b1 b2 b3 / 2 ^ 8) mod 2 ^ 8 = b1)
    by (unfold le32; change (2 ^ 8) with 256 in *;
        change (2 ^ 16) with 65536; change (2 ^ 24) with 16777216;
        Z.div_mod_to_equations; lia).
  assert (E2 : (le32 b0 b1 b2 b3 / 2 ^ 16) mod 2 ^ 8 = b2)
    by (unfold le32; change (2 ^ 8) with 256 in *;
        change (2 ^ 16) with 65536; change (2 ^ 24) with 16777216;
        Z.div_mod_to_equations; lia).
  assert (E3 : (le32 b0 b1 b2 b3 / 2 ^ 24) mod 2 ^ 8 = b3)
    by (unfold le32; change (2 ^ 8) with 256 in *;
        change (2 ^ 16) with 65536; change (2 ^ 24) with 16777216;
        Z.div_mod_to_equations; lia).
  rewrite E0, E1, E2, E3.
  rewrite !Z.shiftl_mul_pow2, !Z.shiftr_div_pow2 by lia.
  rewrite <- !Z.mul_assoc, <- !Z.pow_add_r by lia.
  rewrite !u32_small by (simpl Z.add; lia).
  replace (b2 * 2 ^ 16 / 2 ^ 8) with (b2 * 2 ^ 8)
    by (change (2 ^ 16) with (2 ^ 8 * 2 ^ 8);
        rewrite Z.mul_assoc, Z.div_mul by lia; reflexivity).
  rewrite Z.div_mul by lia.
  simpl Z.add. unfold be32.
  rewrite (lor_aligned _ (b1 * 2 ^ 16) 24) by lane_arith.
  rewrite (lor_aligned _ (b2 * 2 ^ 8) 16) by lane_arith.
  rewrite (lor_aligned _ b3 8) by lane_arith.
  reflexivity.
Qed.

Lemma SWAP_ENDIAN_range (x : Z) : 0 <= SWAP_ENDIAN x < 2 ^ 32.
Proof.
  assert (Hy : 0 <= u32 x < 2 ^ 32) by apply u32_range.
  assert (E : SWAP_ENDIAN x = SWAP_ENDIAN (u32 x)).
  { unfold SWAP_ENDIAN. rewrite (u32_small (u32 x) Hy). reflexivity. }
  rewrite E. set (y := u32 x) in *.
  assert (Ey : y = le32 (y mod 2 ^ 8) ((y / 2 ^ 8) mod 2 ^ 8)
                        ((y / 2 ^ 16) mod 2 ^ 8) (y / 2 ^ 24))
    by (unfold le32; lane_arith).
  rewrite Ey, SWAP_ENDIAN_bytes; unfold is_byte, be32; lane_arith.
Qed.

Lemma ceil_div_bounds (t i : Z) :
  0 < i -> (t + i - 1) / i * i >= t /\ ((t + i - 1) / i - 1) * i < t.
Proof.
  intros Hi.
  pose proof (Z.div_mod (t + i - 1) i ltac:(lia)) as E.
  pose proof (Z.mod_pos_bound (t + i - 1) i Hi) as B.
  rewrite (Z.mul_comm i) in E. lia.
Qed.

(** C5, as stated, fails.  A size field of 0xfffff001 bytes with an
    interleave of 4096: the unsigned 32-bit sum of size and interleave wraps
    to 1, the chunk count comes out as 0 instead of 0x100000, and 0 chunks
    do not cover the size. *)
Lemma ceiling_fails_on_wrap :
  wf_header vag_huge /\
  SWAP_ENDIAN (size vag_huge) = 0xfffff001 /\
  interleave vag_huge = 4096 /\
  num_chunks_of vag_huge = 0 /\
  (0xfffff001 + 4096 - 1) / 4096 = 0x100000 /\
  stream_length_of vag_huge = 0 /\
  ~ (num_chunks_of vag_huge * interleave vag_huge
     >= SWAP_ENDIAN (size vag_huge)).
Proof.
  split; [by_compute |].
  repeat split; try (vm_compute; reflexivity).
  vm_compute. intros H. apply H. reflexivity.
Qed.

(** C5, amended.  The geometry is a function of the header alone.  For an
    interleave above 0 and sizes within the 32-bit arithmetic of the code
    (size plus interleave minus 1 below 2^32; channels times chunks below
    2^31, the signed product; channels times chunks times interleave, plus
    2047, below 2^32),
    the chunk count is the ceiling of the byte-swapped size over the
    interleave, so that the chunks cover the size and one chunk less does
    not, and the stream length is the ceiling of channels times chunks
    times interleave over 2048.  Size and sample rate go through
    [SWAP_ENDIAN], which turns the word read from big-endian bytes into the
    number they encode. *)
Theorem geometry_ceiling (file_pos : Z) (vag : VAG_Header) :
  let T := SWAP_ENDIAN (size vag) in
  let I := interleave vag in
  let C := num_channels_of vag in
  let K := (T + I - 1) / I in
  let L := (C * K * I + 2047) / 2048 in
  wf_header vag -> 0 < I ->
  T + I - 1 < 2 ^ 32 -> C * K < 2 ^ 31 -> C * K * I + 2047 < 2 ^ 32 ->
  num_chunks_of vag = K /\
  K * I >= T /\ (K - 1) * I < T /\
  stream_length_of vag = L /\
  2048 * L >= C * K * I /\ 2048 * (L - 1) < C * K * I /\
  (exists config sctx tr,
      Audio_LoadStream_setup (Some file_pos) vag
      = Load_Ok config sctx
          {| start_lba := s32 (file_pos + 1); stream_length := L;
             next_sector := 0; refill_length := 0 |} tr /\
      cfg_sample_rate config = SWAP_ENDIAN (sample_rate vag)) /\
  (forall b0 b1 b2 b3,
      is_byte b0 -> is_byte b1 -> is_byte b2 -> is_byte b3 ->
      SWAP_ENDIAN (le32 b0 b1 b2 b3) = be32 b0 b1 b2 b3).
Proof.
  intros T I C K L (_ & _ & HI & _ & _ & HC) Hpos Hwrap Hprod Hbound.
  unfold in_u32, in_u16 in *. fold I in HI.
  pose proof (SWAP_ENDIAN_range (size vag)) as HT. fold T in HT.
  destruct (ceil_div_bounds T I Hpos) as [Hceil Hceil']. fold K in Hceil, Hceil'.
  assert (HC1 : 1 <= C <= 65535).
  { unfold C, num_channels_of. rewrite u16_small by lia.
    destruct (Z.eqb_spec (channels vag) 0); lia. }
  assert (HK : 0 <= K) by (apply Z.div_pos; lia).
  assert (HK' : K <= C * K) by nia.
  assert (HCK0 : 0 <= C * K) by nia.
  assert (HCKI : 0 <= C * K * I) by nia.
  assert (Hsum : 0 <= T + I - 1 < 2 ^ 32) by lia.
  assert (EK : num_chunks_of vag = K).
  { unfold num_chunks_of. fold T I. rewrite (u32_small I) by lia.
    unfold u32 at 1. unfold u32 at 1. rewrite Zminus_mod_idemp_l.
    rewrite Z.mod_small by lia. apply s32_small. lia. }
  assert (EL : stream_length_of vag = L).
  { unfold stream_length_of. fold C I. rewrite EK.
    rewrite (s32_small (C * K)) by lia.
    rewrite (u32_small (C * K)) by lia.
    rewrite (u32_small I) by lia.
    rewrite (u32_small (C * K * I)) by lia.
    rewrite (u32_small (C * K * I + 2047)) by lia.
    apply s32_small. unfold L.
    split.
    - assert (0 <= (C * K * I + 2047) / 2048) by (apply Z.div_pos; lia). lia.
    - apply Z.div_lt_upper_bound; lia. }
  split; [exact EK |]. split; [exact Hceil |]. split; [exact Hceil' |].
  split; [exact EL |].
  split; [unfold L; Z.div_mod_to_equations; lia |].
  split; [unfold L; Z.div_mod_to_equations; lia |].
  split.
  - unfold Audio_LoadStream_setup. fold I. rewrite (u32_small I) by lia.
    destruct (Z.eqb_spec I 0) as [E0 | _]; [lia |].
    destruct (channel_loop _ _ _) as [mask vols].
    rewrite EL. eexists _, _, _. split; reflexivity.
  - exact SWAP_ENDIAN_bytes.
Qed.

Lemma geometry_ceiling_witness :
  num_chunks_of vag_40
  = (SWAP_ENDIAN (size vag_40) + interleave vag_40 - 1) / interleave vag_40 /\
  num_chunks_of vag_40 = 10 /\
  stream_length_of vag_40 = 40.
Proof.
  pose proof (geometry_ceiling 100 vag_40) as H. cbv zeta in H.
  destruct H as (EK & _ & _ & EL & _).
  - by_compute.
  - by_compute.
  - by_compute.
  - by_compute.
  - by_compute.
  - split; [exact EK |]. split; vm_compute; reflexivity.
Defined.

(** * Further properties of [audio.c] *)

(** ** [SWAP_ENDIAN] *)

Lemma le32_of_word (y : Z) :
  0 <= y < 2 ^ 32 ->
  y = le32 (y mod 2 ^ 8) ((y / 2 ^ 8) mod 2 ^ 8)
           ((y / 2 ^ 16) mod 2 ^ 8) (y / 2 ^ 24).
Proof. intros Hy. unfold le32. lane_arith. Qed.

Lemma SWAP_ENDIAN_u32 (x : Z) : SWAP_ENDIAN x = SWAP_ENDIAN (u32 x).
Proof.
  unfold SWAP_ENDIAN. rewrite (u32_small (u32 x) (u32_range x)). reflexivity.
Qed.

(** X1.  Swapping the bytes of a word twice gives the word back (as an
    unsigned 32-bit value): the conversion between wire order and host
    order is its own inverse. *)
Theorem SWAP_ENDIAN_involutive (x : Z) :
  SWAP_ENDIAN (SWAP_ENDIAN x) = u32 x.
Proof.
  rewrite (SWAP_ENDIAN_u32 x).
  pose proof (u32_range x) as Hy. set (y := u32 x) in *.
  rewrite (le32_of_word y Hy) at 1.
  set (b0 := y mod 2 ^ 8). set (b1 := (y / 2 ^ 8) mod 2 ^ 8).
  set (b2 := (y / 2 ^ 16) mod 2 ^ 8). set (b3 := y / 2 ^ 24).
  assert (H0 : is_byte b0) by (unfold is_byte, b0; lane_arith).
  assert (H1 : is_byte b1) by (unfold is_byte, b1; lane_arith).
  assert (H2 : is_byte b2) by (unfold is_byte, b2; lane_arith).
  assert (H3 : is_byte b3) by (unfold is_byte, b3; lane_arith).
  rewrite SWAP_ENDIAN_bytes by assumption.
  replace (be32 b0 b1 b2 b3) with (le32 b3 b2 b1 b0)
    by (unfold be32, le32; lia).
  rewrite SWAP_ENDIAN_bytes by assumption.
  rewrite (le32_of_word y Hy). fold b0 b1 b2 b3.
  unfold be32, le32. lia.
Qed.

(** ** The normalization loop from any cursor *)

Lemma normalize_is_mod (len : Z) (Hlen : 1 <= len < 2 ^ 31) (k : nat) :
  forall ns, 0 <= ns < 2 ^ 31 -> ns / len = Z.of_nat k ->
             normalize k len ns (len - ns)
             = Some (ns mod len, len - ns mod len).
Proof.
  induction k as [| k IH]; intros ns Hns Hk.
  - assert (Hlt : ns < len).
    { destruct (Z_lt_le_dec ns len) as [H | H]; [exact H |].
      assert (1 <= ns / len) by (apply Z.div_le_lower_bound; lia). lia. }
    simpl. destruct (Z.leb_spec (len - ns) 0); [lia |].
    rewrite Z.mod_small by lia. reflexivity.
  - assert (Hge : len <= ns).
    { destruct (Z_lt_le_dec ns len) as [H | H]; [| exact H].
      rewrite Z.div_small in Hk by lia. lia. }
    cbn [normalize]. destruct (Z.leb_spec (len - ns) 0); [| lia].
    rewrite !s32_small by lia.
    replace (len - ns + len) with (len - (ns - len)) by lia.
    assert (Ed : (ns - len) / len = Z.of_nat k).
    { replace (ns - len) with (ns + (-1) * len) by lia.
      rewrite Z.div_add by lia. lia. }
    assert (Em : (ns - len) mod len = ns mod len).
    { replace (ns - len) with (ns + (-1) * len) by lia.
      apply Z_mod_plus_full. }
    rewrite IH by (lia || exact Ed). rewrite Em. reflexivity.
Qed.

(** X2.  From any cursor that is not negative, however far beyond the
    stream length, a tick that passes both tests leaves the loop after
    [next_sector / stream_length] rounds and issues its read at the cursor
    reduced modulo the stream length, cut at the end of the stream. *)
Theorem Audio_FeedStream_from_any_cursor (o : Env) (s : StreamReadContext) :
  1 <= stream_length s < 2 ^ 31 -> 0 <= next_sector s < 2 ^ 31 ->
  wf_env o -> issues o ->
  let c := next_sector s mod stream_length s in
  let n := Z.min (Stream_GetFeedPtr_result o / 2048) (stream_length s - c) in
  Audio_FeedStream (Z.to_nat (next_sector s / stream_length s)) o s
  = Some (true,
          {| start_lba := start_lba s; stream_length := stream_length s;
             next_sector := c + n; refill_length := n |},
          [ CdControl_Setloc (s32 (start_lba s + c));
            CdReadCallback true; CdRead n ]) /\
  0 <= c < stream_length s /\ 0 <= n /\ c + n <= stream_length s.
Proof.
  intros Hlen Hns Hwf [Hidle Hthr]. cbv zeta.
  pose proof (feed_blocks_range o Hwf) as Hfeed.
  assert (Hm : 0 <= next_sector s mod stream_length s < stream_length s)
    by (apply Z.mod_pos_bound; lia).
  split; [| lia].
  unfold Audio_FeedStream.
  destruct (Z.ltb_spec 0 (CdReadSync_result o)); [lia |].
  destruct (Z.ltb_spec (Stream_GetRefillLength_result o) (REFILL_THRESHOLD * 2048));
    [lia |].
  rewrite (s32_small (stream_length s - next_sector s)) by lia.
  rewrite (normalize_is_mod (stream_length s) Hlen
             (Z.to_nat (next_sector s / stream_length s)) (next_sector s) Hns).
  2:{ rewrite Z2Nat.id; [reflexivity | apply Z.div_pos; lia]. }
  set (c := next_sector s mod stream_length s) in *.
  set (fb := Stream_GetFeedPtr_result o / 2048) in *.
  rewrite (u32_small (stream_length s - c)) by lia.
  destruct (Z.ltb_spec (stream_length s - c) fb).
  - rewrite Z.min_r by lia.
    rewrite (u32_small c) by lia.
    rewrite (u32_small (c + _)) by lia.
    rewrite (s32_small (c + _)) by lia.
    rewrite (s32_small (stream_length s - c)) by lia. reflexivity.
  - rewrite Z.min_l by lia.
    rewrite (u32_small c) by lia.
    rewrite (u32_small (c + _)) by lia.
    rewrite (s32_small (c + fb)) by lia.
    rewrite (s32_small fb) by lia. reflexivity.
Qed.

Lemma Audio_FeedStream_from_any_cursor_witness :
  Audio_FeedStream 2 (env_free 30 30)
    {| start_lba := 101; stream_length := 40; next_sector := 95;
       refill_length := 0 |}
  = Some (true,
          {| start_lba := 101; stream_length := 40;
             next_sector := 95 mod 40 + Z.min (30 * 2048 / 2048) (40 - 95 mod 40);
             refill_length := Z.min (30 * 2048 / 2048) (40 - 95 mod 40) |},
          [ CdControl_Setloc (s32 (101 + 95 mod 40));
            CdReadCallback true;
            CdRead (Z.min (30 * 2048 / 2048) (40 - 95 mod 40)) ]) /\
  0 <= 95 mod 40 < 40 /\
  0 <= Z.min (30 * 2048 / 2048) (40 - 95 mod 40) /\
  95 mod 40 + Z.min (30 * 2048 / 2048) (40 - 95 mod 40) <= 40.
Proof.
  apply (Audio_FeedStream_from_any_cursor (env_free 30 30)
           {| start_lba := 101; stream_length := 40; next_sector := 95;
              refill_length := 0 |}).
  - by_compute.
  - by_compute.
  - wf_env_by_compute.
  - issues_by_compute.
Defined.

(** ** The fill loop of [Audio_LoadStream] *)

(** The value a tick returns. *)
Lemma Audio_FeedStream_returns (fuel : nat) (o : Env) (s s' : StreamReadContext)
  (b : bool) (tr : list call) :
  Audio_FeedStream fuel o s = Some (b, s', tr) ->
  (b = true /\ keeps_filling o) \/
  (b = false /\ CdReadSync_result o <= 0 /\
   Stream_GetRefillLength_result o < REFILL_THRESHOLD * 2048).
Proof.
  unfold Audio_FeedStream, keeps_filling.
  destruct (Z.ltb_spec 0 (CdReadSync_result o)) as [Hb | Hb].
  - intros H. injection H as <- _ _. left. split; [reflexivity | lia].
  - destruct (Z.ltb_spec (Stream_GetRefillLength_result o)
                (REFILL_THRESHOLD * 2048)) as [Hf | Hf].
    + intros H. injection H as <- _ _. right. repeat split; lia.
    + destruct (normalize _ _ _ _) as [[a c] |]; [| discriminate].
      intros H. injection H as <- _ _. left. split; [reflexivity | lia].
Qed.

(** A fill loop that has come to an end did so at the first tick that
    found the device idle and the free space below the threshold. *)
Lemma fill_loop_exit_inv (fuel : nat) (envs : list Env) :
  forall (s s' : StreamReadContext) (tr : list call),
    fill_loop fuel envs s = Some (s', tr) ->
    exists pre last post,
      envs = pre ++ last :: post /\
      Forall keeps_filling pre /\
      CdReadSync_result last <= 0 /\
      Stream_GetRefillLength_result last < REFILL_THRESHOLD * 2048 /\
      run fuel (map Tick (pre ++ [last])) s = Some (s', tr).
Proof.
  induction envs as [| o envs IH]; intros s s' tr H; [discriminate |].
  cbn [fill_loop] in H.
  destruct (Audio_FeedStream fuel o s) as [[[b s1] t1] |] eqn:E;
    [| discriminate].
  destruct (Audio_FeedStream_returns _ _ _ _ _ _ E)
    as [[-> Hk] | (-> & Hidle & Hlow)].
  - destruct (fill_loop fuel envs s1) as [[s2 t2] |] eqn:E2; [| discriminate].
    injection H as <- <-.
    destruct (IH _ _ _ E2) as (pre & last & post & -> & Hpre & Hi & Hl & Hrun).
    exists (o :: pre), last, post.
    split; [reflexivity |]. split; [constructor; assumption |].
    split; [exact Hi |]. split; [exact Hl |].
    cbn [app map run step]. rewrite E, Hrun. reflexivity.
  - injection H as <- <-.
    exists [], o, envs.
    split; [reflexivity |]. split; [constructor |].
    split; [exact Hidle |]. split; [exact Hlow |].
    cbn [app map run step]. rewrite E. rewrite app_nil_r. reflexivity.
Qed.

(** With a stream length of at least 1 the fill loop comes to an end as
    soon as a tick finds the device idle and the free space below the
    threshold. *)
Lemma fill_loop_total (fuel : nat) (pre : list Env) (last : Env) (post : list Env) :
  forall s : StreamReadContext,
    cursor_inv s -> 1 <= stream_length s -> Forall wf_env pre ->
    Forall keeps_filling pre ->
    CdReadSync_result last <= 0 ->
    Stream_GetRefillLength_result last < REFILL_THRESHOLD * 2048 ->
    exists s' tr, fill_loop (S fuel) (pre ++ last :: post) s = Some (s', tr).
Proof.
  induction pre as [| o pre IH]; intros s Hinv Hpos Hwf Hk Hidle Hlow.
  - cbn [app fill_loop]. unfold Audio_FeedStream.
    destruct (Z.ltb_spec 0 (CdReadSync_result last)); [lia |].
    destruct (Z.ltb_spec (Stream_GetRefillLength_result last)
                (REFILL_THRESHOLD * 2048)); [| lia].
    eexists _, _. reflexivity.
  - inversion Hwf as [| ? ? Ho Hwf']; subst.
    inversion Hk as [| ? ? Hko Hk']; subst.
    cbn [app fill_loop].
    destruct (Z_lt_le_dec 0 (CdReadSync_result o)) as [Hb | Hnb].
    + unfold Audio_FeedStream at 1.
      destruct (Z.ltb_spec 0 (CdReadSync_result o)); [| lia].
      destruct (IH s Hinv Hpos Hwf' Hk' Hidle Hlow) as (s' & tr & E).
      rewrite E. eexists _, _. reflexivity.
    + assert (Hi : issues o) by (unfold issues; destruct Hko; lia).
      rewrite (Audio_FeedStream_issue fuel o s Hinv Hpos Ho Hi).
      destruct (IH (issued_ctx o s)) as (s' & tr & E); try assumption.
      * apply cursor_inv_issued; assumption.
      * rewrite E. eexists _, _. reflexivity.
Qed.

(** X3.  With a stream length of at least 1, the fill loop at the end of
    [Audio_LoadStream] comes to an end if and only if some tick finds the
    device idle and less than the threshold of free space in the ring
    buffer, every tick before it having found the device busy or the free
    space at the threshold; it ends at that tick, having done what the
    ticks up to it do when run one after the other. *)
Theorem fill_loop_exit (fuel : nat) (envs : list Env) (s : StreamReadContext) :
  reachable s -> 1 <= stream_length s -> Forall wf_env envs ->
  ((exists pre last post,
       envs = pre ++ last :: post /\
       Forall keeps_filling pre /\
       CdReadSync_result last <= 0 /\
       Stream_GetRefillLength_result last < REFILL_THRESHOLD * 2048) <->
   (exists s' tr, fill_loop (S fuel) envs s = Some (s', tr))) /\
  (forall s' tr,
      fill_loop (S fuel) envs s = Some (s', tr) ->
      exists pre last post,
        envs = pre ++ last :: post /\
        Forall keeps_filling pre /\
        CdReadSync_result last <= 0 /\
        Stream_GetRefillLength_result last < REFILL_THRESHOLD * 2048 /\
        run (S fuel) (map Tick (pre ++ [last])) s = Some (s', tr)).
Proof.
  intros Hr Hpos Hwf.
  pose proof (reachable_cursor_inv s Hr) as Hinv.
  split; [split |].
  - intros (pre & last & post & -> & Hk & Hidle & Hlow).
    apply Forall_app in Hwf. destruct Hwf as [Hwf _].
    apply fill_loop_total; assumption.
  - intros (s' & tr & H).
    destruct (fill_loop_exit_inv _ _ _ _ _ H)
      as (pre & last & post & E & Hk & Hi & Hl & _).
    exists pre, last, post. repeat split; assumption.
  - intros s' tr H. apply (fill_loop_exit_inv _ _ _ _ _ H).
Qed.

Lemma fill_loop_exit_witness :
  exists s' tr,
    fill_loop 1 [ env_free 48 48; mkEnv 1 0 0; env_free 8 8; env_free 30 30 ]
      (ctx_at 0 0)
    = Some (s', tr).
Proof.
  apply (proj1 (proj1 (fill_loop_exit 0
           [ env_free 48 48; mkEnv 1 0 0; env_free 8 8; env_free 30 30 ]
           (ctx_at 0 0)
           ltac:(reach_by_load 100 vag_40)
           ltac:(by_compute)
           ltac:(repeat constructor; by_compute)))).
  exists [ env_free 48 48; mkEnv 1 0 0 ], (env_free 8 8), [ env_free 30 30 ].
  split; [reflexivity |]. split.
  - constructor; [right; by_compute |].
    constructor; [left; by_compute | constructor].
  - split; by_compute.
Defined.

Lemma stream_length_of_empty (vag : VAG_Header) :
  u32 (interleave vag) <> 0 -> size vag = 0 -> stream_length_of vag = 0.
Proof.
  intros Hnz Hsz.
  pose proof (u32_range (interleave vag)) as HI.
  unfold stream_length_of, num_chunks_of. rewrite Hsz.
  change (SWAP_ENDIAN 0) with 0. rewrite Z.add_0_l.
  set (J := u32 (interleave vag)) in *.
  rewrite (u32_small J) by lia.
  rewrite (u32_small (J - 1)) by lia.
  rewrite (Z.div_small (J - 1) J) by lia.
  change (s32 0) with 0. rewrite Z.mul_0_r.
  change (s32 0) with 0. change (u32 0) with 0. rewrite Z.mul_0_l.
  reflexivity.
Qed.

Lemma fill_loop_busy (fuel : nat) (pre : list Env) :
  forall envs s, Forall busy pre ->
                 fill_loop fuel (pre ++ envs) s = fill_loop fuel envs s.
Proof.
  induction pre as [| o pre IH]; intros envs s Hb; [reflexivity |].
  inversion Hb as [| ? ? Ho Hpre]; subst. unfold busy in Ho.
  cbn [app fill_loop]. unfold Audio_FeedStream at 1.
  destruct (Z.ltb_spec 0 (CdReadSync_result o)); [| lia].
  rewrite (IH envs s Hpre).
  destruct (fill_loop fuel envs s) as [[c t] |]; reflexivity.
Qed.

(** X4.  Opening a stream whose header announces 0 bytes of samples never
    comes back: the stream length is 0, and the first tick of the fill loop
    that finds the device idle and the ring buffer free, as it is after
    [Stream_Init], stays in the normalization loop whatever the fuel. *)
Theorem open_empty_stream_hangs
  (file_pos : Z) (vag : VAG_Header) (pre : list Env) (o : Env) (post : list Env) :
  u32 (interleave vag) <> 0 -> size vag = 0 ->
  Forall busy pre -> issues o ->
  forall fuel,
    Audio_LoadStream fuel (Some file_pos) vag (pre ++ o :: post)
    = Open_Unfinished.
Proof.
  intros Hnz Hsz Hpre Hi fuel.
  unfold Audio_LoadStream, Audio_LoadStream_setup.
  destruct (Z.eqb_spec (u32 (interleave vag)) 0) as [E0 | _]; [contradiction |].
  destruct (channel_loop _ _ _) as [mask vols].
  rewrite (stream_length_of_empty vag Hnz Hsz).
  rewrite (fill_loop_busy fuel pre (o :: post) _ Hpre).
  cbn [fill_loop].
  rewrite Audio_FeedStream_zero_diverges; [reflexivity | | reflexivity | exact Hi].
  unfold cursor_inv; simpl; lia.
Qed.

Lemma open_empty_stream_hangs_witness :
  Audio_LoadStream 1000 (Some 100) vag_empty
    ([ mkEnv 1 0 0 ] ++ env_free 48 48 :: [ env_free 8 8 ])
  = Open_Unfinished.
Proof.
  apply (open_empty_stream_hangs 100 vag_empty [ mkEnv 1 0 0 ]
           (env_free 48 48) [ env_free 8 8 ]).
  - vm_compute. discriminate.
  - reflexivity.
  - repeat constructor.
  - issues_by_compute.
Defined.

(** ** Runs: where the reads go and what the completions commit *)

Lemma reachable_refill_bound (s : StreamReadContext) :
  reachable s -> 0 <= refill_length s <= stream_length s.
Proof.
  induction 1 as [file_pos vag config sctx read_ctx tr H
                 | fuel e s s' tr Hr IH Hwf Hstep].
  - pose proof (cursor_inv_setup _ _ _ _ _ _ H) as [Hl _].
    unfold Audio_LoadStream_setup in H.
    destruct (u32 (interleave vag) =? 0); [discriminate |].
    destruct (channel_loop _ _ _) as [mask vols].
    injection H as _ _ <- _. simpl in *. lia.
  - pose proof (reachable_cursor_inv s Hr) as Hinv.
    destruct e as [o | ev]; simpl in Hstep.
    + destruct (Audio_FeedStream fuel o s) as [[[b c] t] |] eqn:E;
        [| discriminate].
      injection Hstep as <- _.
      destruct (Audio_FeedStream_inv _ _ _ _ _ _ Hinv Hwf E)
        as [[-> _] | (Hpos & _ & _ & -> & _)]; [exact IH |].
      pose proof (feed_blocks_range o Hwf).
      assert (0 <= next_sector s mod stream_length s < stream_length s)
        by (apply Z.mod_pos_bound; lia).
      unfold issued_ctx; simpl. lia.
    + injection Hstep as E.
      pose proof (cd_read_handler_ctx ev s) as E1. rewrite E in E1.
      simpl in E1. subst s'. exact IH.
Qed.

(** X5.  Whatever ticks and completions follow one another, the start and
    the length of the stream stay as [Audio_LoadStream] set them, and every
    read requested lies within the sectors of the stream: it starts at or
    after the first one and ends at or before the last. *)
Theorem reads_stay_within_stream (fuel : nat) (es : list event) :
  forall (s s' : StreamReadContext) (tr : list call) (pos : Z),
    reachable s -> Forall wf_event es ->
    - 2 ^ 31 <= start_lba s -> start_lba s + stream_length s < 2 ^ 31 ->
    run fuel es s = Some (s', tr) ->
    start_lba s' = start_lba s /\
    stream_length s' = stream_length s /\
    Forall (within_stream s) (read_requests pos tr).
Proof.
  induction es as [| e es IH]; intros s s' tr pos Hr Hwf Hlo Hhi Hrun.
  - simpl in Hrun. injection Hrun as <- <-. simpl.
    repeat split; constructor.
  - cbn [run] in Hrun. inversion Hwf as [| ? ? He Hes]; subst.
    destruct (step fuel e s) as [[s1 t1] |] eqn:E1; [| discriminate].
    destruct (run fuel es s1) as [[s2 t2] |] eqn:E2; [| discriminate].
    injection Hrun as <- <-.
    pose proof (reachable_cursor_inv s Hr) as Hinv.
    pose proof (reach_step _ _ _ _ _ Hr He E1) as Hr1.
    destruct e as [o | ev]; simpl in E1.
    + destruct (Audio_FeedStream fuel o s) as [[[b c] t] |] eqn:E;
        [| discriminate].
      injection E1 as <- <-.
      destruct (Audio_FeedStream_inv _ _ _ _ _ _ Hinv He E)
        as [[-> ->] | (Hpos & _ & _ & -> & ->)].
      * apply (IH s s2 t2 pos); assumption.
      * destruct (IH (issued_ctx o s) s2 t2
                    (s32 (start_lba s + next_sector s mod stream_length s)))
          as (Hs & Hl & Hall); try assumption.
        split; [exact Hs |]. split; [exact Hl |].
        unfold issued_calls. cbn [app read_requests].
        constructor; [| exact Hall].
        destruct Hinv as [Hlen _].
        pose proof (feed_blocks_range o He).
        assert (0 <= next_sector s mod stream_length s < stream_length s)
          by (apply Z.mod_pos_bound; lia).
        unfold within_stream. cbn [fst snd].
        rewrite s32_small by lia. lia.
    + injection E1 as E.
      pose proof (cd_read_handler_ctx ev s) as Ec. rewrite E in Ec.
      simpl in Ec. subst s1.
      destruct (IH s s2 t2 pos) as (Hs & Hl & Hall); try assumption.
      split; [exact Hs |]. split; [exact Hl |].
      unfold cd_read_handler in E.
      destruct (negb _); injection E as <-; exact Hall.
Qed.

Lemma reads_stay_within_stream_witness :
  start_lba (ctx_at 20 20) = start_lba (ctx_at 0 0) /\
  stream_length (ctx_at 20 20) = stream_length (ctx_at 0 0) /\
  Forall (within_stream (ctx_at 0 0))
    (read_requests 0
       [ CdControl_Setloc 101; CdReadCallback true; CdRead 30;
         Stream_Feed 61440;
         CdControl_Setloc 131; CdReadCallback true; CdRead 10;
         CdControl_Setloc 101; CdReadCallback true; CdRead 20 ]).
Proof.
  apply (reads_stay_within_stream 1
           [ Tick (env_free 30 30); Interrupt CdlComplete;
             Tick (env_free 24 24); Interrupt CdlDiskError;
             Tick (env_free 24 20) ]
           (ctx_at 0 0) (ctx_at 20 20)).
  - reach_by_load 100 vag_40.
  - repeat constructor; by_compute.
  - by_compute.
  - by_compute.
  - vm_compute. reflexivity.
Defined.

(** X6.  In every run from a reachable context, each completion that is
    not a disk error commits to the ring buffer exactly 2048 bytes for each
    sector of the read issued last (of the read on record in the context
    when the run issues none before it). *)
Theorem feeds_match_reads (fuel : nat) (es : list event) :
  forall (s s' : StreamReadContext) (tr : list call),
    reachable s -> Forall wf_event es ->
    run fuel es s = Some (s', tr) ->
    feeds_match (refill_length s) tr.
Proof.
  induction es as [| e es IH]; intros s s' tr Hr Hwf Hrun.
  - simpl in Hrun. injection Hrun as _ <-. exact I.
  - cbn [run] in Hrun. inversion Hwf as [| ? ? He Hes]; subst.
    destruct (step fuel e s) as [[s1 t1] |] eqn:E1; [| discriminate].
    destruct (run fuel es s1) as [[s2 t2] |] eqn:E2; [| discriminate].
    injection Hrun as _ <-.
    pose proof (reachable_cursor_inv s Hr) as Hinv.
    pose proof (reach_step _ _ _ _ _ Hr He E1) as Hr1.
    pose proof (IH s1 s2 t2 Hr1 Hes E2) as Hrest.
    destruct e as [o | ev]; simpl in E1.
    + destruct (Audio_FeedStream fuel o s) as [[[b c] t] |] eqn:E;
        [| discriminate].
      injection E1 as <- <-.
      destruct (Audio_FeedStream_inv _ _ _ _ _ _ Hinv He E)
        as [[-> ->] | (Hpos & _ & _ & -> & ->)]; [exact Hrest |].
      unfold issued_calls. cbn [app feeds_match]. exact Hrest.
    + injection E1 as E.
      pose proof (cd_read_handler_ctx ev s) as Ec. rewrite E in Ec.
      simpl in Ec. subst s1.
      unfold cd_read_handler in E.
      destruct (negb _); injection E as <-; [| exact Hrest].
      cbn [app feeds_match]. split; [| exact Hrest].
      pose proof (reachable_refill_bound s Hr) as Hb.
      destruct Hinv as [Hlen _].
      apply u32_small. lia.
Qed.

Lemma feeds_match_reads_witness :
  feeds_match (refill_length (ctx_at 0 0))
    [ CdControl_Setloc 101; CdReadCallback true; CdRead 30;
      Stream_Feed 61440;
      CdControl_Setloc 131; CdReadCallback true; CdRead 10;
      CdControl_Setloc 101; CdReadCallback true; CdRead 20 ].
Proof.
  apply (feeds_match_reads 1
           [ Tick (env_free 30 30); Interrupt CdlComplete;
             Tick (env_free 24 24); Interrupt CdlDiskError;
             Tick (env_free 24 20) ]
           (ctx_at 0 0) (ctx_at 20 20)).
  - reach_by_load 100 vag_40.
  - repeat constructor; by_compute.
  - vm_compute. reflexivity.
Defined.

(** ** The channels [Audio_LoadStream] pans *)

Lemma channel_loop_trace (n : nat) :
  forall ch mask,
    snd (channel_loop n ch mask) = map pan_call (channel_range n ch).
Proof.
  induction n as [| n IH]; intros ch mask; [reflexivity |].
  cbn [channel_loop channel_range map].
  specialize (IH (ch + 1) (u32 (Z.lor (Z.shiftl mask 1) 1))).
  destruct (channel_loop n (ch + 1) (u32 (Z.lor (Z.shiftl mask 1) 1)))
    as [m tr].
  cbn [snd] in *. rewrite IH. reflexivity.
Qed.

Lemma channel_range_In (n : nat) :
  forall first ch,
    In ch (channel_range n first) <-> first <= ch < first + Z.of_nat n.
Proof.
  induction n as [| n IH]; intros first ch.
  - simpl. lia.
  - cbn [channel_range In]. rewrite IH, Nat2Z.inj_succ. lia.
Qed.

(** X7.  Setting a stream up pans exactly the channels 0 to
    [num_channels - 1], each one once as far as its volumes go: an even
    channel fully to the left, an odd channel fully to the right. *)
Theorem channels_panned_in_pairs
  (file_pos : Z) (vag : VAG_Header) config sctx read_ctx tr :
  Audio_LoadStream_setup (Some file_pos) vag = Load_Ok config sctx read_ctx tr ->
  forall ch vol_l vol_r,
    In (SPU_CH_VOL ch vol_l vol_r) tr <->
    0 <= ch < num_channels_of vag /\
    vol_l = (if Z.even ch then 0x3fff else 0) /\
    vol_r = (if Z.even ch then 0 else 0x3fff).
Proof.
  unfold Audio_LoadStream_setup.
  destruct (u32 (interleave vag) =? 0); [discriminate |].
  pose proof (channel_loop_trace (Z.to_nat (num_channels_of vag)) 0 0) as Htr.
  destruct (channel_loop _ _ _) as [mask vols]. cbn [snd] in Htr.
  intros H. injection H as _ _ _ <-. subst vols.
  intros ch vol_l vol_r.
  assert (Hn : 1 <= num_channels_of vag).
  { unfold num_channels_of. pose proof (u16_range (channels vag)).
    destruct (Z.eqb_spec (u16 (channels vag)) 0); lia. }
  cbn [In]. rewrite in_app_iff, in_map_iff.
  split.
  - intros [Hin | [Hin | [Hin | [Hin | [(c & Hc & Hin) | Hin]]]]];
      try discriminate.
    + apply channel_range_In in Hin. rewrite Z2Nat.id in Hin by lia.
      unfold pan_call in Hc. rewrite <- Zeven_mod in Hc.
      injection Hc as -> <- <-. repeat split; lia.
    + simpl in Hin. destruct Hin as [Hin | []]. discriminate.
  - intros (Hch & -> & ->). do 4 right. left. exists ch. split.
    + unfold pan_call. rewrite <- Zeven_mod. reflexivity.
    + apply channel_range_In. rewrite Z2Nat.id by lia. lia.
Qed.

Lemma channels_panned_in_pairs_witness :
  In (SPU_CH_VOL 1 0 0x3fff)
     [ CdControl_Setloc 100; CdReadCallback false; CdRead 1; CdReadSync_wait;
       SPU_CH_VOL 0 0x3fff 0; SPU_CH_VOL 1 0 0x3fff; Stream_Init_call ] <->
  0 <= 1 < num_channels_of vag_40 /\
  0 = (if Z.even 1 then 0x3fff else 0) /\
  0x3fff = (if Z.even 1 then 0 else 0x3fff).
Proof.
  apply (channels_panned_in_pairs 100 vag_40
           {| spu_address := STREAM_BUFFER_ADDR; channel_mask := 3;
              cfg_interleave := 4096; buffer_size := RAM_BUFFER_SIZE;
              refill_threshold := 0; cfg_sample_rate := 44100 |}
           {| ctx_sample_rate := 44100; samples := 71680 |}
           (ctx_at 0 0)).
  vm_compute. reflexivity.
Defined.

(** ** [Audio_ResetChannels] and [Audio_Init] *)




(** ** [Audio_GetInitialTime] *)

(** X9.  Applied to the sample count and the rate that [Audio_LoadStream]
    stores, [Audio_GetInitialTime] divides by 0 when the header's rate is
    0; otherwise, within the signed 32-bit range, it returns the whole
    seconds that 28 samples for every 16 bytes of the size last at that
    rate. *)
Theorem Audio_GetInitialTime_whole_seconds
  (file_pos : Z) (vag : VAG_Header) config sctx read_ctx tr :
  Audio_LoadStream_setup (Some file_pos) vag = Load_Ok config sctx read_ctx tr ->
  let total := SWAP_ENDIAN (size vag) / 16 * 28 in
  let rate := SWAP_ENDIAN (sample_rate vag) in
  (rate = 0 -> Audio_GetInitialTime sctx = None) /\
  (rate <> 0 -> rate < 2 ^ 31 -> total < 2 ^ 31 ->
   exists t,
     Audio_GetInitialTime sctx = Some t /\
     0 <= t /\ t * rate <= total < (t + 1) * rate).
Proof.
  unfold Audio_LoadStream_setup.
  destruct (u32 (interleave vag) =? 0); [discriminate |].
  destruct (channel_loop _ _ _) as [mask vols].
  intros H. injection H as _ <- _ _. cbv zeta.
  unfold Audio_GetInitialTime. cbn [ctx_sample_rate samples].
  pose proof (SWAP_ENDIAN_range (size vag)) as HT.
  pose proof (SWAP_ENDIAN_range (sample_rate vag)) as HR.
  split.
  - intros ->. reflexivity.
  - intros Hnz _ Hlt.
    destruct (Z.eqb_spec (SWAP_ENDIAN (sample_rate vag)) 0) as [E | _];
      [contradiction |].
    set (T := SWAP_ENDIAN (size vag) / 16 * 28) in *.
    set (R := SWAP_ENDIAN (sample_rate vag)) in *.
    assert (HT0 : 0 <= T).
    { unfold T. assert (0 <= SWAP_ENDIAN (size vag) / 16)
        by (apply Z.div_pos; lia). lia. }
    rewrite (u32_small T) by lia.
    assert (Hq : 0 <= T / R <= T).
    { split; [apply Z.div_pos; lia |].
      apply Z.div_le_upper_bound; [lia | nia]. }
    rewrite (u32_small (T / R)) by lia.
    eexists. split; [reflexivity |]. split; [lia |].
    pose proof (Z.div_mod T R Hnz) as Ed.
    pose proof (Z.mod_pos_bound T R ltac:(lia)) as Em.
    rewrite (Z.mul_comm R) in Ed. lia.
Qed.

Lemma Audio_GetInitialTime_whole_seconds_witness :
  (SWAP_ENDIAN (sample_rate vag_40) = 0 ->
   Audio_GetInitialTime {| ctx_sample_rate := 44100; samples := 71680 |}
   = None) /\
  (SWAP_ENDIAN (sample_rate vag_40) <> 0 ->
   SWAP_ENDIAN (sample_rate vag_40) < 2 ^ 31 ->
   SWAP_ENDIAN (size vag_40) / 16 * 28 < 2 ^ 31 ->
   exists t,
     Audio_GetInitialTime {| ctx_sample_rate := 44100; samples := 71680 |}
     = Some t /\
     0 <= t /\
     t * SWAP_ENDIAN (sample_rate vag_40)
     <= SWAP_ENDIAN (size vag_40) / 16 * 28
     < (t + 1) * SWAP_ENDIAN (sample_rate vag_40)).
Proof.
  apply (Audio_GetInitialTime_whole_seconds 100 vag_40
           {| spu_address := STREAM_BUFFER_ADDR; channel_mask := 3;
              cfg_interleave := 4096; buffer_size := RAM_BUFFER_SIZE;
              refill_threshold := 0; cfg_sample_rate := 44100 |}
           {| ctx_sample_rate := 44100; samples := 71680 |}
           (ctx_at 0 0)
           [ CdControl_Setloc 100; CdReadCallback false; CdRead 1;
             CdReadSync_wait; SPU_CH_VOL 0 0x3fff 0; SPU_CH_VOL 1 0 0x3fff;
             Stream_Init_call ]).
  vm_compute. reflexivity.
Defined.

(** * Properties of [character/dad.c] *)

Lemma char_dad_frame_tex :
  Forall (fun cframe => 0 <= Dad.tex cframe < Dad.Dad_Arc_Max)
         Dad.char_dad_frame.
Proof. repeat constructor; vm_compute; discriminate. Qed.

Lemma char_dad_frame_lookup (f : Z) :
  0 <= f < 12 ->
  exists cframe,
    nth_error Dad.char_dad_frame (Z.to_nat f) = Some cframe /\
    0 <= Dad.tex cframe < Dad.Dad_Arc_Max.
Proof.
  intros Hf.
  destruct (nth_error Dad.char_dad_frame (Z.to_nat f)) as [cframe |] eqn:E.
  - exists cframe. split; [reflexivity |].
    apply nth_error_In in E.
    exact (proj1 (Forall_forall _ _) char_dad_frame_tex cframe E).
  - apply nth_error_None in E. change (length Dad.char_dad_frame) with 12%nat in E.
    lia.
Qed.

(** What [Char_Dad_SetFrame] does for a frame of the table. *)
Lemma Char_Dad_SetFrame_cases (this : Dad.Char_Dad) (f : Z) :
  f <> Dad.frame this -> 0 <= f < 12 ->
  exists cframe,
    nth_error Dad.char_dad_frame (Z.to_nat f) = Some cframe /\
    0 <= Dad.tex cframe < Dad.Dad_Arc_Max /\
    Dad.Char_Dad_SetFrame this f
    = Some ({| Dad.frame := f; Dad.tex_id := Dad.tex cframe |},
            if Dad.tex cframe =? Dad.tex_id this then []
            else [ Dad.Gfx_LoadTex (Dad.tex cframe) ]).
Proof.
  intros Hne Hf.
  destruct (char_dad_frame_lookup f Hf) as (cframe & E & Ht).
  exists cframe. split; [exact E |]. split; [exact Ht |].
  unfold Dad.Char_Dad_SetFrame.
  destruct (Z.eqb_spec f (Dad.frame this)) as [-> | _]; [contradiction |].
  change (Z.of_nat (length Dad.char_dad_frame)) with 12.
  destruct (Z.leb_spec 0 f); [| lia].
  destruct (Z.ltb_spec f 12); [| lia].
  cbn [negb andb]. rewrite E.
  destruct (Z.eqb_spec (Dad.tex cframe) (Dad.tex_id this)) as [Et | _].
  - cbn [negb]. rewrite Et. reflexivity.
  - cbn [negb].
    destruct (Z.leb_spec 0 (Dad.tex cframe)); [| lia].
    destruct (Z.ltb_spec (Dad.tex cframe) Dad.Dad_Arc_Max); [| lia].
    reflexivity.
Qed.

(** X10.  [Char_Dad_SetFrame] stays within [char_dad_frame] and [arc_ptr]
    exactly for the frame already shown, which it does not look up, and for
    the twelve frames 0 to 11 of the table; every other frame is an access
    outside the table. *)
Theorem Char_Dad_SetFrame_defined_iff (this : Dad.Char_Dad) (f : Z) :
  Dad.Char_Dad_SetFrame this f <> None <->
  f = Dad.frame this \/ 0 <= f < 12.
Proof.
  split.
  - intros H. destruct (Z.eq_dec f (Dad.frame this)) as [E | N];
      [left; exact E | right].
    unfold Dad.Char_Dad_SetFrame in H.
    destruct (Z.eqb_spec f (Dad.frame this)) as [E | _]; [contradiction |].
    cbn [negb] in H.
    change (Z.of_nat (length Dad.char_dad_frame)) with 12 in H.
    destruct (Z.leb_spec 0 f); destruct (Z.ltb_spec f 12);
      cbn [andb] in H; try lia; contradiction.
  - intros [E | Hf].
    + unfold Dad.Char_Dad_SetFrame.
      destruct (Z.eqb_spec f (Dad.frame this)) as [_ | N];
        [discriminate | contradiction].
    + destruct (Z.eq_dec f (Dad.frame this)) as [E | N].
      * unfold Dad.Char_Dad_SetFrame.
        destruct (Z.eqb_spec f (Dad.frame this)) as [_ | N];
          [discriminate | contradiction].
      * destruct (Char_Dad_SetFrame_cases this f N Hf) as (cf & _ & _ & E).
        rewrite E. discriminate.
Qed.

(** X11.  After [Char_Dad_SetFrame] has changed the frame, the texture on
    record is the one of the frame shown and is an entry of [arc_ptr]; and
    a call made when that already holds keeps it so. *)
Theorem Char_Dad_SetFrame_consistent
  (this this' : Dad.Char_Dad) (f : Z) (tr : list Dad.gfx_call) :
  Dad.Char_Dad_SetFrame this f = Some (this', tr) ->
  (f <> Dad.frame this ->
   Dad.consistent this' /\ Dad.frame this' = f /\
   0 <= Dad.tex_id this' < Dad.Dad_Arc_Max) /\
  (Dad.consistent this -> Dad.consistent this').
Proof.
  intros H.
  assert (Hchange : f <> Dad.frame this ->
                    Dad.consistent this' /\ Dad.frame this' = f /\
                    0 <= Dad.tex_id this' < Dad.Dad_Arc_Max).
  { intros N.
    assert (Hf : 0 <= f < 12).
    { destruct (proj1 (Char_Dad_SetFrame_defined_iff this f)) as [E | Hf];
        [rewrite H; discriminate | contradiction | exact Hf]. }
    destruct (Char_Dad_SetFrame_cases this f N Hf) as (cf & E & Ht & Es).
    rewrite Es in H. injection H as <- _.
    split; [| split; [reflexivity | exact Ht]].
    exists cf. cbn [Dad.frame Dad.tex_id]. repeat split; [exact E | lia]. }
  split; [exact Hchange |].
  intros Hc. destruct (Z.eq_dec f (Dad.frame this)) as [E | N].
  - unfold Dad.Char_Dad_SetFrame in H.
    destruct (Z.eqb_spec f (Dad.frame this)) as [_ | N]; [| contradiction].
    cbn [negb] in H. injection H as <- _. exact Hc.
  - apply Hchange. exact N.
Qed.

Lemma Char_Dad_SetFrame_consistent_witness :
  (5 <> Dad.frame (Dad.mkChar_Dad 0 Dad.Dad_ArcMain_Idle0) ->
   Dad.consistent (Dad.mkChar_Dad 5 Dad.Dad_ArcMain_Left) /\
   Dad.frame (Dad.mkChar_Dad 5 Dad.Dad_ArcMain_Left) = 5 /\
   0 <= Dad.tex_id (Dad.mkChar_Dad 5 Dad.Dad_ArcMain_Left) < Dad.Dad_Arc_Max) /\
  (Dad.consistent (Dad.mkChar_Dad 0 Dad.Dad_ArcMain_Idle0) ->
   Dad.consistent (Dad.mkChar_Dad 5 Dad.Dad_ArcMain_Left)).
Proof.
  apply (Char_Dad_SetFrame_consistent
           (Dad.mkChar_Dad 0 Dad.Dad_ArcMain_Idle0)
           (Dad.mkChar_Dad 5 Dad.Dad_ArcMain_Left) 5
           [ Dad.Gfx_LoadTex Dad.Dad_ArcMain_Left ]).
  vm_compute. reflexivity.
Defined.

(** X12.  Setting the same frame again does nothing: a second call of
    [Char_Dad_SetFrame] with the frame just set leaves the state as it is
    and loads no texture.  One call loads one texture at most, and the
    texture it loads is the one it records, different from the one on
    record before. *)
Theorem Char_Dad_SetFrame_idempotent
  (this this' : Dad.Char_Dad) (f : Z) (tr : list Dad.gfx_call) :
  Dad.Char_Dad_SetFrame this f = Some (this', tr) ->
  Dad.Char_Dad_SetFrame this' f = Some (this', []) /\
  (tr = [] \/
   tr = [ Dad.Gfx_LoadTex (Dad.tex_id this') ] /\
   Dad.tex_id this' <> Dad.tex_id this).
Proof.
  intros H.
  assert (Hsame : forall t, Dad.frame t = f ->
                            Dad.Char_Dad_SetFrame t f = Some (t, [])).
  { intros t Et. unfold Dad.Char_Dad_SetFrame.
    destruct (Z.eqb_spec f (Dad.frame t)) as [_ | N]; [reflexivity |].
    congruence. }
  destruct (Z.eq_dec f (Dad.frame this)) as [E | N].
  - rewrite Hsame in H by congruence. injection H as <- <-.
    split; [apply Hsame; congruence | left; reflexivity].
  - assert (Hf : 0 <= f < 12).
    { destruct (proj1 (Char_Dad_SetFrame_defined_iff this f)) as [E | Hf];
        [rewrite H; discriminate | contradiction | exact Hf]. }
    destruct (Char_Dad_SetFrame_cases this f N Hf) as (cf & _ & _ & Es).
    rewrite Es in H. injection H as <- <-.
    split; [apply Hsame; reflexivity |].
    cbn [Dad.tex_id].
    destruct (Z.eqb_spec (Dad.tex cf) (Dad.tex_id this)) as [Et | Nt].
    + left. reflexivity.
    + right. split; [reflexivity | exact Nt].
Qed.

Lemma Char_Dad_SetFrame_idempotent_witness :
  Dad.Char_Dad_SetFrame (Dad.mkChar_Dad 5 Dad.Dad_ArcMain_Left) 5
  = Some (Dad.mkChar_Dad 5 Dad.Dad_ArcMain_Left, []) /\
  ([ Dad.Gfx_LoadTex Dad.Dad_ArcMain_Left ] = [] \/
   [ Dad.Gfx_LoadTex Dad.Dad_ArcMain_Left ]
   = [ Dad.Gfx_LoadTex (Dad.tex_id (Dad.mkChar_Dad 5 Dad.Dad_ArcMain_Left)) ] /\
   Dad.tex_id (Dad.mkChar_Dad 5 Dad.Dad_ArcMain_Left)
   <> Dad.tex_id (Dad.mkChar_Dad 0 Dad.Dad_ArcMain_Idle0)).
Proof.
  apply (Char_Dad_SetFrame_idempotent
           (Dad.mkChar_Dad 0 Dad.Dad_ArcMain_Idle0)
           (Dad.mkChar_Dad 5 Dad.Dad_ArcMain_Left) 5
           [ Dad.Gfx_LoadTex Dad.Dad_ArcMain_Left ]).
  vm_compute. reflexivity.
Defined.

Lemma last_cons_default (l : list Z) :
  forall a d, last (a :: l) d = last l a.
Proof.
  induction l as [| b l IH]; intros a d; [reflexivity |].
  change (last (a :: b :: l) d) with (last (b :: l) d).
  rewrite !IH. reflexivity.
Qed.

(** X13.  Frames that share the texture on record are set without loading
    anything: however many frames of one sheet follow one another, no call
    of [Gfx_LoadTex] is made and the texture on record stays. *)
Theorem set_frames_same_sheet (frames : list Z) :
  forall this : Dad.Char_Dad,
    Forall (fun f =>
              exists cframe,
                0 <= f /\
                nth_error Dad.char_dad_frame (Z.to_nat f) = Some cframe /\
                Dad.tex cframe = Dad.tex_id this) frames ->
    exists this',
      Dad.set_frames this frames = Some (this', []) /\
      Dad.tex_id this' = Dad.tex_id this /\
      Dad.frame this' = last frames (Dad.frame this).
Proof.
  induction frames as [| f frames IH]; intros this Hall.
  - exists this. repeat split.
  - inversion Hall as [| ? ? (cf & Hf0 & Hnth & Htex) Hrest]; subst.
    assert (Hf : 0 <= f < 12).
    { assert (Hlt : (Z.to_nat f < length Dad.char_dad_frame)%nat)
        by (apply nth_error_Some; congruence).
      change (length Dad.char_dad_frame) with 12%nat in Hlt. lia. }
    assert (Hstep : exists this1,
               Dad.Char_Dad_SetFrame this f = Some (this1, []) /\
               Dad.tex_id this1 = Dad.tex_id this /\ Dad.frame this1 = f).
    { destruct (Z.eq_dec f (Dad.frame this)) as [E | N].
      - exists this. unfold Dad.Char_Dad_SetFrame.
        destruct (Z.eqb_spec f (Dad.frame this)) as [_ | N];
          [| contradiction].
        repeat split. congruence.
      - destruct (Char_Dad_SetFrame_cases this f N Hf) as (cf' & E' & _ & Es).
        assert (cf' = cf) by congruence. subst cf'.
        rewrite Htex, Z.eqb_refl in Es.
        eexists. split; [exact Es |]. split; reflexivity. }
    destruct Hstep as (this1 & Es & Et & Efr).
    destruct (IH this1) as (this' & Er & Et' & Efr').
    { rewrite Et. exact Hrest. }
    exists this'. cbn [Dad.set_frames]. rewrite Es, Er.
    split; [reflexivity |]. split; [congruence |].
    rewrite Efr', Efr. symmetry. apply last_cons_default.
Qed.

Lemma set_frames_same_sheet_witness :
  exists this',
    Dad.set_frames (Dad.mkChar_Dad 0 Dad.Dad_ArcMain_Idle0) [1; 0; 1; 1; 0]
    = Some (this', []) /\
    Dad.tex_id this' = Dad.tex_id (Dad.mkChar_Dad 0 Dad.Dad_ArcMain_Idle0) /\
    Dad.frame this'
    = last [1; 0; 1; 1; 0] (Dad.frame (Dad.mkChar_Dad 0 Dad.Dad_ArcMain_Idle0)).
Proof.
  apply (set_frames_same_sheet [1; 0; 1; 1; 0]
           (Dad.mkChar_Dad 0 Dad.Dad_ArcMain_Idle0)).
  repeat constructor;
    (eexists; split; [by_compute | split; vm_compute; reflexivity]).
Defined.
